(** * One-file REINFORCE: rollouts and the training loop

    A shallow embedding of [experimental/reinforce/main.py].

    The rollout and the training loop are embedded over exact rationals
    ([Q]); their numeric properties are stated up to [Qeq] ([==]).  The only
    place where the source itself distinguishes non-finite values is
    [tf.check_numerics] in [Policy._set_loss]; the loss tensor therefore
    ranges over [tfloat], which adds [Inf] and [NaN].  The range of the
    policy's output is a matter of float32 arithmetic (overflow, NaN); for it
    the forward pass is embedded a second time, over IEEE binary32
    ([model32], [compute_action32]).

    The collaborators that are not part of the repository are taken as they
    are called: the gym environment ([reset], [step]), ray's [MeanStdFilter]
    (a callable with state) and the TensorFlow engine that evaluates the loss
    and applies one gradient-descent step. *)

From Stdlib Require Import String QArith Qminmax Qpower ZArith List Bool Arith Lia Lqa.
From Stdlib Require Import SpecFloat.
Import ListNotations.

Open Scope Q_scope.

(** ** Exceptions and the result monad *)

Inductive error : Type :=
| AssertionError   (* a failed [assert] *)
| ValueError       (* a feed that does not fit its placeholder *)
| IndexError       (* [x[0]] on an empty sequence *)
| NumericError     (* [tf.check_numerics] found NaN or Inf *)
| OutOfFuel.       (* the loop budget of the model ran out; not a Python exception *)

Inductive result (A : Type) : Type :=
| Ok (a : A)
| Raise (e : error).

Arguments Ok {A} a.
Arguments Raise {A} e.

Definition bind {A B : Type} (m : result A) (k : A -> result B) : result B :=
  match m with
  | Ok a => k a
  | Raise e => Raise e
  end.

Notation "x <- m ;; k" := (bind m (fun x => k))
  (at level 61, m at next level, right associativity).
Notation "' p <- m ;; k" := (bind m (fun x => let p := x in k))
  (at level 61, p pattern, m at next level, right associativity).

(** Python's [for x in l: s = body(s, x)], stopping at the first exception. *)
Fixpoint for_each {A S : Type} (l : list A) (body : S -> A -> result S) (s : S)
  : result S :=
  match l with
  | [] => Ok s
  | x :: l' => s' <- body s x ;; for_each l' body s'
  end.

(** [range(n)] for a Python integer [n]: empty when [n <= 0]. *)
Definition range (n : Z) : list nat := seq 0 (Z.to_nat n).

(** ** Arrays *)

(** A rank-1 array and a rank-2 array (a list of rows). *)
Definition vector : Type := list Q.
Definition matrix : Type := list vector.

(** Every row of [x] has [m] entries: [x.shape == (_, m)]. *)
Definition fits (m : nat) (x : matrix) : bool :=
  forallb (fun row => (length row =? m)%nat) x.

(** [x.shape == (n, m)] for a rank-2 array. *)
Definition has_shape (n m : nat) (x : matrix) : bool :=
  (length x =? n)%nat && fits m x.

(** [x[np.newaxis, ...]] *)
Definition newaxis {A : Type} (x : A) : list A := [x].

(** ** Trajectory *)

Record Trajectory : Type := mkTrajectory {
  observ : matrix;
  reward : Q;
  done : bool;
  action : matrix;
  next_observ : matrix;
  raw_return : Q;
  return_ : Q
}.

(** ** Configuration *)

Record Config : Type := mkConfig {
  use_bias : bool;
  env_name : string;
  discount_factor : Q;
  learning_rate : Q;
  num_episodes : Z
}.

Definition default_config : Config :=
  mkConfig false "MountainCarContinuous-v0"%string (995 # 1000) (1 # 1000) 50%Z.

Definition test_config : Config :=
  mkConfig false "MountainCarContinuous-v0"%string (995 # 1000) (1 # 1000) 5%Z.

(** ** Policy *)

(** The trainable variables of the graph: the kernels of the three
    bias-free dense layers (2 x 100, 100 x 100, 100 x 1). *)
Record Variables : Type := mkVariables {
  kernel : matrix;
  kernel_1 : matrix;
  kernel_2 : matrix
}.

Definition sum (v : vector) : Q := fold_right Qplus 0 v.

(** Entry [i, j] of a kernel. *)
Definition entry (k : matrix) (i j : nat) : Q := nth j (nth i k []) 0.

(** Row vector times kernel, [units] output columns. *)
Definition vecmat (x : vector) (units : nat) (k : matrix) : vector :=
  map (fun j => sum (map (fun ix => snd ix * entry k (fst ix) j)
                         (combine (seq 0 (length x)) x)))
      (seq 0 units).

(** [tf.layers.dense(x, units, use_bias=False)] with kernel [k]. *)
Definition dense (x : matrix) (units : nat) (k : matrix) : matrix :=
  map (fun row => vecmat row units k) x.

(** [tf.clip_by_value(t, lo, hi)] on one entry. *)
Definition clip_by_value (t lo hi : Q) : Q := Qmax (Qmin t hi) lo.

(** [Policy._build_model]: the tensor [self.model] as a function of the
    variables and of what is fed to [self.observ]. *)
Definition model (v : Variables) (observ : matrix) : matrix :=
  let x := dense observ 100 (kernel v) in
  let x := dense x 100 (kernel_1 v) in
  let x := dense x 1 (kernel_2 v) in
  map (map (fun t => clip_by_value t (-(1)) 1)) x.

(** Feeding a value to a placeholder of shape [(None, m)]. *)
Definition feed (m : nat) (x : matrix) : result matrix :=
  if fits m x then Ok x else Raise ValueError.

(** [Policy.compute_action] *)
Definition compute_action (v : Variables) (observ : matrix) : result vector :=
  if has_shape 1 2 observ then
    fed <- feed 2 observ ;;
    match model v fed with
    | a :: _ => Ok a
    | [] => Raise IndexError
    end
  else Raise AssertionError.

(** ** The loss tensor *)

(** A float32 entry of the loss: a finite value, an infinity or a NaN. *)
Inductive tfloat : Type :=
| Finite (q : Q)
| Inf (negative : bool)
| NaN.

Definition tensor : Type := list (list tfloat).

Definition is_finite (x : tfloat) : bool :=
  match x with
  | Finite _ => true
  | _ => false
  end.

(** [tf.check_numerics(t, message)]: the identity on a tensor without NaN
    and Inf, an error otherwise. *)
Definition check_numerics (t : tensor) : result tensor :=
  if forallb (forallb is_finite) t then Ok t else Raise NumericError.

(** [x[0]] on a list. *)
Definition getitem0 {A : Type} (l : list A) : result A :=
  match l with
  | x :: _ => Ok x
  | [] => Raise IndexError
  end.

(** ** The environment, the reward filter and the rollout *)

Inductive env_call : Type :=
| CallReset
| CallStep (a : vector).

Section Reinforce.

(** The gym environment behind [ConvertTo32Bit]: a deterministic transition
    system.  [env_step s a] is [(next_observ, reward, done)] and the next
    state. *)
Variable EnvState : Type.
Variable env_reset : EnvState -> vector * EnvState.
Variable env_step : EnvState -> vector -> vector * Q * bool * EnvState.

(** [MeanStdFilter.__call__]: the normalised reward and the new running
    statistics. *)
Variable FilterState : Type.
Variable filter_call : FilterState -> Q -> Q * FilterState.

(** The value of [-tf.log(tf.exp(tf.nn.softmax(model)) - tf.exp(action))]
    before [check_numerics], and the variables after one
    [GradientDescentOptimizer] step on the loss; both for the given feeds of
    [observ] and [action]. *)
Variable log_prob : Variables -> matrix -> matrix -> tensor.
Variable apply_gradients : Variables -> matrix -> matrix -> Variables.

(** The environment object: its state and the calls made on it so far. *)
Record Env : Type := mkEnv {
  state : EnvState;
  calls : list env_call
}.

Definition reset (env : Env) : vector * Env :=
  let '(o, s) := env_reset (state env) in
  (o, mkEnv s (calls env ++ [CallReset])).

Definition step (env : Env) (a : vector) : vector * Q * bool * Env :=
  let '(o, r, d, s) := env_step (state env) a in
  (o, r, d, mkEnv s (calls env ++ [CallStep a])).

(** The body of [for t in itertools.count()] in [rollouts]; [fuel] bounds
    the number of passes. *)
Fixpoint rollouts_loop (fuel : nat) (policy : Variables) (config : Config)
    (t : nat) (env : Env) (reward_filter : FilterState) (observ : matrix)
    (raw_return return_ : Q) (trajectories : list Trajectory)
  : result (list Trajectory * Env * FilterState) :=
  match fuel with
  | O => Raise OutOfFuel
  | S fuel' =>
      action <- compute_action policy observ ;;
      let '(next_observ, reward, done, env) := step env action in
      let next_observ := newaxis next_observ in
      let action := newaxis action in
      let '(reward, reward_filter) := filter_call reward_filter reward in
      let raw_return := raw_return + reward in
      let return_ := return_ + reward * discount_factor config ^ Z.of_nat t in
      let trajectories :=
        trajectories ++
        [mkTrajectory observ reward done action next_observ raw_return return_] in
      let observ := next_observ in
      if done then Ok (trajectories, env, reward_filter)
      else rollouts_loop fuel' policy config (S t) env reward_filter observ
                         raw_return return_ trajectories
  end.

Definition rollouts (fuel : nat) (env : Env) (policy : Variables)
    (reward_filter : FilterState) (config : Config)
  : result (list Trajectory * Env * FilterState) :=
  let raw_return := 0 in
  let return_ := 0 in
  let '(observ, env) := reset env in
  let observ := newaxis observ in
  let trajectories := [] in
  rollouts_loop fuel policy config 0 env reward_filter observ
                raw_return return_ trajectories.

(** ** REINFORCE *)

Record REINFORCE : Type := mkREINFORCE {
  config : Config;
  env : Env;
  policy : Variables;
  reward_filter : FilterState
}.

(** [Policy._set_loss]: the tensor [self.loss]. *)
Definition loss (v : Variables) (observ action : matrix) : result tensor :=
  check_numerics (log_prob v observ action).

(** [self.sess.run([self.policy.train_op, self.policy.loss], feed_dict=...)] *)
Definition run_train_op (v : Variables) (observ action : matrix)
  : result (tensor * Variables) :=
  o <- feed 2 observ ;;
  a <- feed 1 action ;;
  l <- loss v o a ;;
  Ok (l, apply_gradients v o a).

(** First loop of [_train]: one rollout per pass, appended to [episodes]. *)
Definition collect_episode (fuel : nat) (policy : Variables) (config : Config)
    (s : list (list Trajectory) * Env * FilterState) (_ : nat)
  : result (list (list Trajectory) * Env * FilterState) :=
  let '(episodes, env, reward_filter) := s in
  '(episode, env, reward_filter) <- rollouts fuel env policy reward_filter config ;;
  _ <- getitem0 episode ;;
  Ok (episodes ++ [episode], env, reward_filter).

(** Inner body of the second loop: one update per trajectory. *)
Definition update (s : list tensor * Variables) (trajectory : Trajectory)
  : result (list tensor * Variables) :=
  let '(losses, v) := s in
  '(loss, v) <- run_train_op v (observ trajectory) (action trajectory) ;;
  Ok (losses ++ [loss], v).

Definition _train (fuel : nat) (self : REINFORCE)
  : result (list tensor * REINFORCE) :=
  '(episodes, env, reward_filter) <-
    for_each (range (num_episodes (config self)))
             (collect_episode fuel (policy self) (config self))
             ([], env self, reward_filter self) ;;
  '(losses, v) <-
    for_each episodes (fun s episode => for_each episode update s)
             ([], policy self) ;;
  Ok (losses, mkREINFORCE (config self) env v reward_filter).

(** The generator object made by [train(num_iters)]: what is left of
    [range(num_iters)]. *)
Record generator : Type := mkGenerator {
  pending : list nat
}.

Definition train (num_iters : Z) : generator := mkGenerator (range num_iters).

(** [next(gen)]: [None] stands for [StopIteration]. *)
Definition next (fuel : nat) (gen : generator) (self : REINFORCE)
  : result (option (list tensor) * generator * REINFORCE) :=
  match pending gen with
  | [] => Ok (None, gen, self)
  | _ :: rest =>
      '(losses, self) <- _train fuel self ;;
      Ok (Some losses, mkGenerator rest, self)
  end.

(** [for losses in gen: ...], collecting what is yielded; [budget] bounds
    the number of [next] calls. *)
Fixpoint drain (budget fuel : nat) (gen : generator) (self : REINFORCE)
  : result (list (list tensor) * generator * REINFORCE) :=
  match budget with
  | O => Raise OutOfFuel
  | S budget' =>
      '(y, gen, self) <- next fuel gen self ;;
      match y with
      | None => Ok ([], gen, self)
      | Some losses =>
          '(rest, gen, self) <- drain budget' fuel gen self ;;
          Ok (losses :: rest, gen, self)
      end
  end.

(** ** The loops as relations

    What the two loops compute, stated without accumulators: used to
    compare the functions above with the description of the algorithm. *)

(** One episode from step index [t]: the trajectories in step order. *)
Inductive episode (policy : Variables) (config : Config)
  : nat -> Env -> FilterState -> matrix -> Q -> Q ->
    list Trajectory -> Env -> FilterState -> Prop :=
| episode_last t env rf obs raw ret a o r env' r' rf' :
    compute_action policy obs = Ok a ->
    step env a = (o, r, true, env') ->
    filter_call rf r = (r', rf') ->
    episode policy config t env rf obs raw ret
      [mkTrajectory obs r' true (newaxis a) (newaxis o) (raw + r')
                    (ret + r' * discount_factor config ^ Z.of_nat t)]
      env' rf'
| episode_more t env rf obs raw ret a o r env' r' rf' rest env'' rf'' :
    compute_action policy obs = Ok a ->
    step env a = (o, r, false, env') ->
    filter_call rf r = (r', rf') ->
    episode policy config (S t) env' rf' (newaxis o) (raw + r')
      (ret + r' * discount_factor config ^ Z.of_nat t) rest env'' rf'' ->
    episode policy config t env rf obs raw ret
      (mkTrajectory obs r' false (newaxis a) (newaxis o) (raw + r')
                    (ret + r' * discount_factor config ^ Z.of_nat t) :: rest)
      env'' rf''.

(** [n] rollouts one after the other, each starting from the environment
    and the filter statistics the previous one left. *)
Inductive sequential_rollouts (fuel : nat) (policy : Variables) (config : Config)
  : nat -> Env -> FilterState -> list (list Trajectory) -> Env -> FilterState -> Prop :=
| sequential_nil env rf :
    sequential_rollouts fuel policy config 0 env rf [] env rf
| sequential_cons n env rf ep env' rf' eps env'' rf'' :
    rollouts fuel env policy rf config = Ok (ep, env', rf') ->
    sequential_rollouts fuel policy config n env' rf' eps env'' rf'' ->
    sequential_rollouts fuel policy config (S n) env rf (ep :: eps) env'' rf''.

(** One update per trajectory, in order, each on a batch of size one and
    on the variables the previous update left. *)
Inductive updates : Variables -> list Trajectory -> list tensor -> Variables -> Prop :=
| updates_nil v : updates v [] [] v
| updates_cons v tr loss trs losses v' :
    has_shape 1 2 (observ tr) = true ->
    has_shape 1 1 (action tr) = true ->
    check_numerics (log_prob v (observ tr) (action tr)) = Ok loss ->
    updates (apply_gradients v (observ tr) (action tr)) trs losses v' ->
    updates v (tr :: trs) (loss :: losses) v'.

(** Some entry of the tensor is NaN or Inf. *)
Definition not_finite (t : tensor) : Prop :=
  exists row x, In row t /\ In x row /\ is_finite x = false.

(** Every episode ends within [bound] steps: some measure of the
    environment's state is positive and at most [bound] after a reset, and
    decreases, staying positive, with every step that does not report
    [done]. *)
Definition bounded_episodes (bound : nat) : Prop :=
  exists steps_left : EnvState -> nat,
    (forall s, (0 < steps_left (snd (env_reset s)) <= bound)%nat) /\
    (forall s a,
        (0 < steps_left s)%nat ->
        snd (fst (env_step s a)) = false ->
        (0 < steps_left (snd (env_step s a)) < steps_left s)%nat).

(** One training iteration. *)
Definition iteration (fuel : nat) (self : REINFORCE) (losses : list tensor)
    (self' : REINFORCE) : Prop :=
  exists episodes,
    sequential_rollouts fuel (policy self) (config self)
      (Z.to_nat (num_episodes (config self)))
      (env self) (reward_filter self) episodes (env self') (reward_filter self') /\
    updates (policy self) (concat episodes) losses (policy self') /\
    config self' = config self.

Inductive iterations (fuel : nat)
  : REINFORCE -> list (list tensor) -> REINFORCE -> Prop :=
| iterations_nil self : iterations fuel self [] self
| iterations_cons self losses self' rest self'' :
    iteration fuel self losses self' ->
    iterations fuel self' rest self'' ->
    iterations fuel self (losses :: rest) self''.

(** An environment that reports [done] on the [k]-th step of an episode
    and not before, whatever the actions are. *)
Inductive terminates_after : nat -> EnvState -> Prop :=
| terminates_now s :
    (forall a, snd (fst (env_step s a)) = true) ->
    terminates_after 1 s
| terminates_later k s :
    (forall a, snd (fst (env_step s a)) = false) ->
    (forall a, terminates_after (S k) (snd (env_step s a))) ->
    terminates_after (S (S k)) s.

(** The observations of the environment have the two components the
    policy expects. *)
Definition observations_fit : Prop :=
  (forall s, length (fst (env_reset s)) = 2%nat) /\
  (forall s a, length (fst (fst (fst (env_step s a)))) = 2%nat).

(** An observation the environment can return, from a reset or a step. *)
Definition env_observation (o : vector) : Prop :=
  (exists s, o = fst (env_reset s)) \/
  (exists s a, o = fst (fst (fst (env_step s a)))).

End Reinforce.

Arguments mkEnv {EnvState} state calls.
Arguments state {EnvState} e.
Arguments calls {EnvState} e.
Arguments reset {EnvState} env_reset env.
Arguments step {EnvState} env_step env a.
Arguments rollouts_loop {EnvState} env_step {FilterState} filter_call.
Arguments rollouts {EnvState} env_reset env_step {FilterState} filter_call.
Arguments mkREINFORCE {EnvState FilterState}.
Arguments config {EnvState FilterState} r.
Arguments env {EnvState FilterState} r.
Arguments policy {EnvState FilterState} r.
Arguments reward_filter {EnvState FilterState} r.
Arguments collect_episode {EnvState} env_reset env_step {FilterState} filter_call.
Arguments _train {EnvState} env_reset env_step {FilterState} filter_call.
Arguments next {EnvState} env_reset env_step {FilterState} filter_call.
Arguments drain {EnvState} env_reset env_step {FilterState} filter_call.
Arguments episode {EnvState} env_step {FilterState} filter_call.
Arguments sequential_rollouts {EnvState} env_reset env_step {FilterState} filter_call.
Arguments iteration {EnvState} env_reset env_step {FilterState} filter_call.
Arguments iterations {EnvState} env_reset env_step {FilterState} filter_call.
Arguments terminates_after {EnvState} env_step.
Arguments bounded_episodes {EnvState} env_reset env_step.
Arguments observations_fit {EnvState} env_reset env_step.
Arguments env_observation {EnvState} env_reset env_step.

(** ** Concrete collaborators *)

(** A stub environment: the state counts the steps of the episode, every
    step returns the observation [(0, 0)] and the reward [1], and [done] is
    reported on step number [k]. *)
Definition stub_reset (s : nat) : vector * nat := ([0; 0], 0%nat).

Definition stub_step (k : nat) (s : nat) (a : vector) : vector * Q * bool * nat :=
  ([0; 0], 1, (S s =? k)%nat, S s).

(** A filter that returns every reward as it is. *)
Definition identity_filter (st : unit) (x : Q) : Q * unit := (x, st).

(** Square root on [Q], rounded down to eight decimal places. *)
Definition sqrt_down (q : Q) : Q :=
  Z.sqrt (Qnum q * 10 ^ 16 / Zpos (Qden q)) # 100000000.

(** Modelled from the spec: the reward filter (section 4.1), which the code
    takes from ray ([MeanStdFilter]) and which is not part of the
    repository.  Running count, mean and sum of squared deviations are
    updated incrementally with the new reward; the reward is then centred,
    divided by [sqrt (variance + eps)] and clipped to [[-clip, clip]].  For
    the first sample the spec allows the raw or the zero-centred reward:
    [first_raw] chooses. *)
Record RewardFilter : Type := mkRewardFilter {
  count : nat;
  mean : Q;
  m2 : Q
}.

Definition normalize (first_raw : bool) (clip eps : Q) (st : RewardFilter) (x : Q)
  : Q * RewardFilter :=
  let n := S (count st) in
  let delta := x - mean st in
  let mean' := mean st + delta / inject_Z (Z.of_nat n) in
  let m2' := m2 st + delta * (x - mean') in
  let st' := mkRewardFilter n mean' m2' in
  if (n =? 1)%nat then ((if first_raw then x else x - mean'), st')
  else
    let variance := m2' / inject_Z (Z.of_nat (n - 1)) in
    let z := (x - mean') / sqrt_down (variance + eps) in
    (clip_by_value z (- clip) clip, st').

(** [MeanStdFilter((), clip=5.)] before its first call. *)
Definition new_filter : RewardFilter := mkRewardFilter 0 0 0.

Definition mean_std_filter (first_raw : bool) : RewardFilter -> Q -> Q * RewardFilter :=
  normalize first_raw 5 (1 # 100000000).

(** Variables of the right shapes, all zero. *)
Definition zero_variables : Variables :=
  mkVariables (repeat (repeat 0 100) 2) (repeat (repeat 0 100) 100) (repeat [0] 100).

(** A loss that is finite everywhere and an optimizer step that leaves the
    variables alone. *)
Definition finite_loss (v : Variables) (o a : matrix) : tensor := [[Finite 0]].
Definition no_step (v : Variables) (o a : matrix) : Variables := v.

(** The loss of [Policy._set_loss] as far as finiteness goes, in exact
    arithmetic.  The softmax of the model's single output per row is 1, so
    the tensor is [-log(e - exp(action))] entry by entry: finite where the
    action is below 1 (its value is not rational; [value] gives it), +Inf
    where the action is 1 (the logarithm of 0), NaN above. *)
Definition source_loss (value : Q -> Q) (v : Variables) (o a : matrix) : tensor :=
  map (map (fun c =>
              match c ?= 1 with
              | Lt => Finite (value c)
              | Eq => Inf false
              | Gt => NaN
              end)) a.

(** Every entry of an action batch is below 1. *)
Definition below_one (a : matrix) : Prop := Forall (Forall (fun c => c < 1)) a.

(** An environment like the stub, with the observation (1, 0), and
    variables that send this observation to 2 before the clip, so to the
    action 1. *)
Definition unit_reset (s : nat) : vector * nat := ([1; 0], 0%nat).

Definition unit_step (k : nat) (s : nat) (a : vector) : vector * Q * bool * nat :=
  ([1; 0], 1, (S s =? k)%nat, S s).

Definition saturating_variables : Variables :=
  mkVariables [1 :: repeat 0 99; repeat 0 100]
              ((1 :: repeat 0 99) :: repeat (repeat 0 100) 99)
              ([2] :: repeat [0] 99).

(** [Forall2 Qeq] as a test. *)
Fixpoint Qlist_eqb (l l' : list Q) : bool :=
  match l, l' with
  | [], [] => true
  | x :: l, y :: l' => Qeq_bool x y && Qlist_eqb l l'
  | _, _ => false
  end.

(** The configuration of the concrete scenario, and the same without
    discounting. *)
Definition scenario_config : Config :=
  mkConfig false "stub"%string (995 # 1000) (1 # 1000) 2%Z.

Definition undiscounted_config : Config :=
  mkConfig false "stub"%string 1 (1 # 1000) 2%Z.

(** The trajectory of one step of the stub environment under
    [zero_variables]. *)
Definition stub_trajectory (reward : Q) (done : bool) (raw_return return_ : Q)
  : Trajectory :=
  mkTrajectory [[0; 0]] reward done [[0]] [[0; 0]] raw_return return_.

(** The [raw_return] fields of a rollout, in lowest terms. *)
Definition raw_returns {E F : Type} (r : result (list Trajectory * E * F))
  : option (list Q) :=
  match r with
  | Ok (trajs, _, _) => Some (map (fun tr => Qred (raw_return tr)) trajs)
  | Raise _ => None
  end.

(** ** Shapes of a trajectory sequence *)

(** The running returns of a trajectory sequence that starts at step [t]
    with the returns [raw] and [ret] accumulated so far. *)
Fixpoint running (gamma : Q) (t : nat) (raw ret : Q) (trs : list Trajectory) : Prop :=
  match trs with
  | [] => True
  | tr :: rest =>
      raw_return tr = raw + reward tr /\
      return_ tr = ret + reward tr * gamma ^ Z.of_nat t /\
      running gamma (S t) (raw_return tr) (return_ tr) rest
  end.

(** Every entry but the last has [done = false], the last has [done = true]. *)
Fixpoint done_at_end (trs : list Trajectory) : Prop :=
  match trs with
  | [] => False
  | [tr] => done tr = true
  | tr :: rest => done tr = false /\ done_at_end rest
  end.

(** Each entry starts at the observation [obs] the previous one ended in. *)
Fixpoint chained (obs : matrix) (trs : list Trajectory) : Prop :=
  match trs with
  | [] => True
  | tr :: rest => observ tr = obs /\ chained (next_observ tr) rest
  end.

Definition batch_of_one (tr : Trajectory) : Prop :=
  has_shape 1 2 (observ tr) = true /\ has_shape 1 1 (action tr) = true.

(** ** The forward pass in float32 *)

(** IEEE binary32: 24 bits of precision, exponents up to 128; addition and
    multiplication round to nearest even, overflow to an infinity and
    propagate NaN. *)
Definition float32 : Type := spec_float.

Definition f32_add : float32 -> float32 -> float32 := SFadd 24 128.
Definition f32_mul : float32 -> float32 -> float32 := SFmul 24 128.

Definition f32_zero : float32 := S754_zero false.
Definition f32_one : float32 := S754_finite false 8388608 (-23).
Definition f32_minus_one : float32 := S754_finite true 8388608 (-23).

Definition f32_is_nan (x : float32) : bool :=
  match x with
  | S754_nan => true
  | _ => false
  end.

Definition f32_is_finite (x : float32) : bool :=
  match x with
  | S754_zero _ | S754_finite _ _ _ => true
  | _ => false
  end.

Definition vector32 : Type := list float32.
Definition matrix32 : Type := list vector32.

Definition fits32 (m : nat) (x : matrix32) : bool :=
  forallb (fun row => (length row =? m)%nat) x.

Definition has_shape32 (n m : nat) (x : matrix32) : bool :=
  (length x =? n)%nat && fits32 m x.

Record Variables32 : Type := mkVariables32 {
  kernel32 : matrix32;
  kernel32_1 : matrix32;
  kernel32_2 : matrix32
}.

Definition entry32 (k : matrix32) (i j : nat) : float32 :=
  nth j (nth i k []) f32_zero.

(** Row vector times kernel; each output accumulates its products from
    the first input on, starting at zero. *)
Definition vecmat32 (x : vector32) (units : nat) (k : matrix32) : vector32 :=
  map (fun j =>
         fold_left (fun acc ix => f32_add acc (f32_mul (snd ix) (entry32 k (fst ix) j)))
                   (combine (seq 0 (length x)) x) f32_zero)
      (seq 0 units).

Definition dense32 (x : matrix32) (units : nat) (k : matrix32) : matrix32 :=
  map (fun row => vecmat32 row units k) x.

(** [tf.minimum] and [tf.maximum] on one entry: [y < x ? y : x] and
    [x < y ? y : x]; a NaN in [x] stays. *)
Definition minimum32 (x y : float32) : float32 := if SFltb y x then y else x.
Definition maximum32 (x y : float32) : float32 := if SFltb x y then y else x.

(** [tf.clip_by_value(t, lo, hi)]: the minimum with [hi], then the maximum
    with [lo]. *)
Definition clip_by_value32 (t lo hi : float32) : float32 :=
  maximum32 (minimum32 t hi) lo.

Definition model32 (v : Variables32) (observ : matrix32) : matrix32 :=
  let x := dense32 observ 100 (kernel32 v) in
  let x := dense32 x 100 (kernel32_1 v) in
  let x := dense32 x 1 (kernel32_2 v) in
  map (map (fun t => clip_by_value32 t f32_minus_one f32_one)) x.

Definition feed32 (m : nat) (x : matrix32) : result matrix32 :=
  if fits32 m x then Ok x else Raise ValueError.

Definition compute_action32 (v : Variables32) (observ : matrix32) : result vector32 :=
  if has_shape32 1 2 observ then
    fed <- feed32 2 observ ;;
    match model32 v fed with
    | a :: _ => Ok a
    | [] => Raise IndexError
    end
  else Raise AssertionError.

(** A value of the interval [-1, 1]. *)
Definition f32_within_unit (x : float32) : Prop :=
  SFleb f32_minus_one x = true /\ SFleb x f32_one = true.

(** Variables whose first layer doubles the first input in its first unit
    and are zero elsewhere, and the observation (2^127, 0). *)
Definition overflow_variables : Variables32 :=
  mkVariables32
    [S754_finite false 8388608 (-22) :: repeat f32_zero 99; repeat f32_zero 100]
    (repeat (repeat f32_zero 100) 100)
    (repeat [f32_zero] 100).

Definition overflow_observation : matrix32 :=
  [[S754_finite false 8388608 104; f32_zero]].

(** ** Sums, traces and the entry point *)

(** The discounted rewards [r_i * gamma ^ (t + i)] of a reward sequence
    that starts at step [t]. *)
Fixpoint discounted (gamma : Q) (t : nat) (rewards : list Q) : list Q :=
  match rewards with
  | [] => []
  | r :: rest => r * gamma ^ Z.of_nat t :: discounted gamma (S t) rest
  end.

(** A callable with state applied to a sequence of inputs, one call after
    the other: the outputs and the last state. *)
Fixpoint call_all {St : Type} (f : St -> Q -> Q * St) (st : St) (xs : list Q)
  : list Q * St :=
  match xs with
  | [] => ([], st)
  | x :: rest =>
      let '(y, st) := f st x in
      let '(ys, st) := call_all f st rest in
      (y :: ys, st)
  end.

(** The rewards an environment returns from state [s] for a sequence of
    actions. *)
Fixpoint step_rewards {EnvState : Type}
    (env_step : EnvState -> vector -> vector * Q * bool * EnvState)
    (s : EnvState) (actions : list vector) : list Q :=
  match actions with
  | [] => []
  | a :: rest =>
      let '(_, r, _, s') := env_step s a in
      r :: step_rewards env_step s' rest
  end.

Definition is_reset (c : env_call) : bool :=
  match c with
  | CallReset => true
  | CallStep _ => false
  end.

Definition count_resets (cs : list env_call) : nat :=
  length (filter is_reset cs).

Definition count_steps (cs : list env_call) : nat :=
  length (filter (fun c => negb (is_reset c)) cs).

(** [x[-1]] on a list. *)
Definition getitem_last {A : Type} (l : list A) : result A :=
  match rev l with
  | x :: _ => Ok x
  | [] => Raise IndexError
  end.

Section Main.

Variable EnvState : Type.
Variable env_reset : EnvState -> vector * EnvState.
Variable env_step : EnvState -> vector -> vector * Q * bool * EnvState.
Variable FilterState : Type.
Variable filter_call : FilterState -> Q -> Q * FilterState.
Variable log_prob : Variables -> matrix -> matrix -> tensor.
Variable apply_gradients : Variables -> matrix -> matrix -> Variables.

(** [for losses in gen: print('loss', losses[0], losses[-1])]; [printed]
    collects the arguments of this print statement, one pair per pass of the
    loop (what [_train] itself writes to the output is not recorded). *)
Fixpoint print_losses (budget fuel : nat) (gen : generator)
    (self : REINFORCE EnvState FilterState) (printed : list (tensor * tensor))
  : result (list (tensor * tensor) * REINFORCE EnvState FilterState) :=
  match budget with
  | O => Raise OutOfFuel
  | S budget' =>
      '(y, gen, self) <-
        next env_reset env_step filter_call log_prob apply_gradients fuel gen self ;;
      match y with
      | None => Ok (printed, self)
      | Some losses =>
          first <- getitem0 losses ;;
          last <- getitem_last losses ;;
          print_losses budget' fuel gen self (printed ++ [(first, last)])
      end
  end.

(** [main]: the agent is [REINFORCE(AttrDict(test_config()))]; what
    [gym.make] and the variable initializer give it is [env0] and [v0], and
    [rf0] is the reward filter made by [_init]. *)
Definition main (budget fuel : nat) (env0 : Env EnvState) (v0 : Variables)
    (rf0 : FilterState)
  : result (list (tensor * tensor) * REINFORCE EnvState FilterState) :=
  let config := test_config in
  let agent := mkREINFORCE config env0 v0 rf0 in
  print_losses budget fuel (train 1) agent [].

End Main.

Arguments print_losses {EnvState} env_reset env_step {FilterState} filter_call.
Arguments main {EnvState} env_reset env_step {FilterState} filter_call.

(** Variables with a few non-zero entries. *)
Definition some_variables : Variables :=
  mkVariables [[1; -(2)]; [3 # 2; 4]] [[1; 1]; [0; 7]] [[5]; [-(1 # 3)]].

(** The rollout of the stub environment under [zero_variables], the
    identity filter and the discount factor 0.995. *)
Definition stub_episode : list Trajectory :=
  [stub_trajectory 1 false 1 1;
   stub_trajectory 1 false 2 (1995 # 1000);
   stub_trajectory 1 true 3 (2985025000 # 1000000000)].

Definition stub_env_after : Env nat :=
  mkEnv 3%nat [CallReset; CallStep [0]; CallStep [0]; CallStep [0]].

(** A filter that only clips, to [[-5, 5]]. *)
Definition clip_filter (st : unit) (x : Q) : Q * unit := (clip_by_value x (-(5)) 5, st).

(** The stub environment that never reports [done]. *)
Definition endless_step (s : nat) (a : vector) : vector * Q * bool * nat :=
  ([0; 0], 1, false, S s).

(** The scenario's configuration with the discount factor 0. *)
Definition myopic_config : Config :=
  mkConfig false "stub"%string 0 (1 # 1000) 2%Z.

(** An agent on the stub environment with the scenario's configuration
    (two episodes per iteration), what one iteration with [finite_loss] and
    [no_step] returns, and the agent it leaves. *)
Definition stub_agent : REINFORCE nat unit :=
  mkREINFORCE scenario_config (mkEnv 0%nat []) zero_variables tt.

Definition stub_losses : list tensor := repeat [[Finite 0]] 6.

Definition stub_agent_after : REINFORCE nat unit :=
  mkREINFORCE scenario_config
    (mkEnv 3%nat [CallReset; CallStep [0]; CallStep [0]; CallStep [0];
                  CallReset; CallStep [0]; CallStep [0]; CallStep [0]])
    zero_variables tt.

Definition saturated_agent : REINFORCE nat unit :=
  mkREINFORCE scenario_config (mkEnv 0%nat []) saturating_variables tt.

Definition saturated_trajectory : Trajectory :=
  mkTrajectory [[1; 0]] 1 false [[1]] [[1; 0]] 1 1.

(** The scenario's configuration without episodes, and an agent with it. *)
Definition idle_config : Config :=
  mkConfig false "stub"%string (995 # 1000) (1 # 1000) 0%Z.

Definition idle_agent : REINFORCE nat unit :=
  mkREINFORCE idle_config (mkEnv 0%nat []) zero_variables tt.

(** The stub environment with observations of three components. *)
Definition wide_reset (s : nat) : vector * nat := ([0; 0; 0], 0%nat).

(** * Properties *)

(** ** The policy's forward pass *)

Lemma bind_ok {A B : Type} (m : result A) (k : A -> result B) (b : B) :
  bind m k = Ok b -> exists a, m = Ok a /\ k a = Ok b.
Proof.
  destruct m as [a | e]; simpl; intros H; [exists a; auto | discriminate].
Qed.

Lemma clip_by_value_bounds (t lo hi : Q) :
  lo <= hi -> lo <= clip_by_value t lo hi <= hi.
Proof.
  intros Hle. unfold clip_by_value. split.
  - apply Q.le_max_r.
  - apply Q.max_lub; [apply Q.le_min_r | exact Hle].
Qed.

Lemma vecmat_length (x : vector) (units : nat) (k : matrix) :
  length (vecmat x units k) = units.
Proof. unfold vecmat. now rewrite length_map, length_seq. Qed.

Lemma model_rows (v : Variables) (x : matrix) :
  length (model v x) = length x /\
  Forall (fun row => length row = 1%nat) (model v x).
Proof.
  unfold model, dense. split.
  - now rewrite !length_map.
  - rewrite !map_map. apply Forall_map, Forall_forall. intros row _.
    now rewrite length_map, vecmat_length.
Qed.

Lemma has_shape_true (n m : nat) (x : matrix) :
  has_shape n m x = true <->
  length x = n /\ Forall (fun row => length row = m) x.
Proof.
  unfold has_shape, fits. rewrite andb_true_iff, Nat.eqb_eq, forallb_forall, Forall_forall.
  split; intros [Hn Hrows]; split; auto; intros row Hin.
  - now apply Nat.eqb_eq, Hrows.
  - now apply Nat.eqb_eq, Hrows.
Qed.

Lemma feed_has_shape (n m : nat) (x : matrix) :
  has_shape n m x = true -> feed m x = Ok x.
Proof.
  unfold has_shape, feed. intros H. apply andb_true_iff in H as [_ H]. now rewrite H.
Qed.

Lemma compute_action_accepts (v : Variables) (x : matrix) :
  has_shape 1 2 x = true ->
  exists a, compute_action v x = Ok a /\ model v x = [a].
Proof.
  intros H. unfold compute_action. rewrite H, (feed_has_shape 1 2 x H). simpl.
  apply has_shape_true in H as [Hlen _].
  destruct (model_rows v x) as [Hrows _]. rewrite Hlen in Hrows.
  destruct (model v x) as [| a [| b rest]]; try discriminate.
  exists a. split; reflexivity.
Qed.

Lemma compute_action_rejects (v : Variables) (x : matrix) :
  has_shape 1 2 x = false -> compute_action v x = Raise AssertionError.
Proof. intros H. unfold compute_action. now rewrite H. Qed.

Lemma compute_action_shape (v : Variables) (x : matrix) (a : vector) :
  compute_action v x = Ok a -> has_shape 1 2 x = true /\ length a = 1%nat.
Proof.
  intros H. destruct (has_shape 1 2 x) eqn:Hs.
  - split; [reflexivity |].
    destruct (compute_action_accepts v x Hs) as (a' & Ha & Hm).
    rewrite Ha in H. injection H as <-.
    destruct (model_rows v x) as [_ Hrows]. rewrite Hm in Hrows.
    now inversion Hrows.
  - rewrite (compute_action_rejects v x Hs) in H. discriminate.
Qed.

Lemma SFcompare_antisym (x y : float32) :
  SFcompare y x = option_map CompOpp (SFcompare x y).
Proof.
  destruct x as [sx | sx | | sx mx ex], y as [sy | sy | | sy my ey]; simpl;
    try destruct sx; try destruct sy; try reflexivity;
    rewrite (Z.compare_antisym ey ex); destruct (ey ?= ex)%Z; simpl;
    try reflexivity;
    rewrite (Pos.compare_cont_antisym mx my Eq); reflexivity.
Qed.

Lemma SFcompare_one_nan (x : float32) : SFcompare f32_one x = None -> x = S754_nan.
Proof.
  destruct x as [sx | sx | | sx mx ex]; unfold SFcompare, f32_one;
    try discriminate; auto.
Qed.

Lemma clip_by_value32_range (x : float32) :
  (x = S754_nan /\ clip_by_value32 x f32_minus_one f32_one = S754_nan) \/
  f32_within_unit (clip_by_value32 x f32_minus_one f32_one).
Proof.
  unfold clip_by_value32, minimum32, maximum32.
  destruct (SFltb f32_one x) eqn:Habove.
  - right. split; reflexivity.
  - destruct (SFltb x f32_minus_one) eqn:Hbelow.
    + right. split; reflexivity.
    + unfold f32_within_unit, SFleb. unfold SFltb in Habove, Hbelow.
      rewrite (SFcompare_antisym x f32_minus_one), (SFcompare_antisym f32_one x).
      destruct (SFcompare f32_one x) as [c1 |] eqn:E1.
      * destruct (SFcompare x f32_minus_one) as [c2 |] eqn:E2.
        -- right. destruct c1, c2; try discriminate; split; reflexivity.
        -- exfalso. destruct x as [sx | sx | | sx mx ex];
             unfold SFcompare, f32_one, f32_minus_one in E1, E2; discriminate.
      * left. apply SFcompare_one_nan in E1. auto.
Qed.

Lemma vecmat32_length (x : vector32) (units : nat) (k : matrix32) :
  length (vecmat32 x units k) = units.
Proof. unfold vecmat32. now rewrite length_map, length_seq. Qed.

Lemma model32_rows (v : Variables32) (x : matrix32) :
  length (model32 v x) = length x /\
  Forall (fun row => length row = 1%nat) (model32 v x).
Proof.
  unfold model32, dense32. split.
  - now rewrite !length_map.
  - rewrite !map_map. apply Forall_map, Forall_forall. intros row _.
    now rewrite length_map, vecmat32_length.
Qed.

Lemma model32_range (v : Variables32) (x : matrix32) :
  Forall (Forall (fun c => c = S754_nan \/ f32_within_unit c)) (model32 v x).
Proof.
  unfold model32. apply Forall_map, Forall_forall. intros row _.
  apply Forall_map, Forall_forall. intros t _.
  destruct (clip_by_value32_range t) as [[_ Hnan] | Hin]; auto.
Qed.

Lemma has_shape32_true (n m : nat) (x : matrix32) :
  has_shape32 n m x = true <->
  length x = n /\ Forall (fun row => length row = m) x.
Proof.
  unfold has_shape32, fits32.
  rewrite andb_true_iff, Nat.eqb_eq, forallb_forall, Forall_forall.
  split; intros [Hn Hrows]; split; auto; intros row Hin.
  - now apply Nat.eqb_eq, Hrows.
  - now apply Nat.eqb_eq, Hrows.
Qed.

Lemma compute_action32_accepts (v : Variables32) (x : matrix32) :
  has_shape32 1 2 x = true ->
  exists a, compute_action32 v x = Ok a /\ model32 v x = [a].
Proof.
  intros H. unfold compute_action32, feed32. rewrite H.
  pose proof H as Hfits. unfold has_shape32 in Hfits.
  apply andb_true_iff in Hfits as [_ Hfits]. rewrite Hfits. simpl.
  apply has_shape32_true in H as [Hlen _].
  destruct (model32_rows v x) as [Hrows _]. rewrite Hlen in Hrows.
  destruct (model32 v x) as [| a [| b rest]]; try discriminate.
  exists a. split; reflexivity.
Qed.




(** C6, as the claim states it, fails: a batch of two observations has the
    shape (N, 2) with N = 2 and [compute_action] refuses it. *)
Lemma compute_action_refuses_batch_of_two :
  has_shape 2 2 [[0; 0]; [0; 0]] = true /\
  compute_action zero_variables [[0; 0]; [0; 0]] = Raise AssertionError.
Proof. split; reflexivity. Qed.

(** C6, amended. [compute_action] fails, with the assertion's error, exactly
    on the observations whose shape is not (1, 2), and returns an action
    exactly on those of shape (1, 2). *)
Theorem compute_action_fails_iff (v : Variables) (observ : matrix) :
  (compute_action v observ = Raise AssertionError <-> has_shape 1 2 observ = false) /\
  ((exists a, compute_action v observ = Ok a) <-> has_shape 1 2 observ = true) /\
  (forall e, compute_action v observ = Raise e -> e = AssertionError).
Proof.
  destruct (has_shape 1 2 observ) eqn:Hs.
  - destruct (compute_action_accepts v observ Hs) as (a & Ha & _).
    rewrite Ha. repeat split; try discriminate; eauto.
  - rewrite (compute_action_rejects v observ Hs).
    repeat split; try discriminate; auto.
    + intros [a Ha]. discriminate.
    + intros e He. now injection He.
Qed.

(** ** Rollouts *)

Section RolloutProperties.

Context {EnvState : Type}
        (env_reset : EnvState -> vector * EnvState)
        (env_step : EnvState -> vector -> vector * Q * bool * EnvState)
        {FilterState : Type}
        (filter_call : FilterState -> Q -> Q * FilterState).

Local Abbreviation rollouts_loop := (rollouts_loop env_step filter_call).
Local Abbreviation rollouts := (rollouts env_reset env_step filter_call).
Local Abbreviation episode := (episode env_step filter_call).

(** *** The loop and the relation agree *)

Lemma rollouts_loop_episode policy config fuel :
  forall t env rf obs raw ret acc trajs env' rf',
    rollouts_loop fuel policy config t env rf obs raw ret acc = Ok (trajs, env', rf') ->
    exists new,
      trajs = acc ++ new /\
      episode policy config t env rf obs raw ret new env' rf' /\
      (length new <= fuel)%nat.
Proof.
  induction fuel as [| fuel IH]; intros t env rf obs raw ret acc trajs env' rf' H;
    simpl in H; [discriminate |].
  apply bind_ok in H as (a & Ha & H).
  destruct (step env_step env a) as [[[o r] d] env1] eqn:Hstep.
  destruct (filter_call rf r) as [r' rf1] eqn:Hf.
  destruct d.
  - injection H as <- <- <-.
    eexists. split; [reflexivity |]. split.
    + eapply episode_last; eauto.
    + simpl. lia.
  - apply IH in H as (new & -> & Hep & Hlen).
    eexists. split; [now rewrite <- app_assoc |]. split.
    + eapply episode_more; eauto.
    + simpl. lia.
Qed.

Lemma episode_rollouts_loop policy config t env rf obs raw ret new env' rf' :
  episode policy config t env rf obs raw ret new env' rf' ->
  forall fuel acc,
    (length new <= fuel)%nat ->
    rollouts_loop fuel policy config t env rf obs raw ret acc = Ok (acc ++ new, env', rf').
Proof.
  induction 1 as [t env rf obs raw ret a o r env' r' rf' Ha Hstep Hf
                 | t env rf obs raw ret a o r env' r' rf' rest env'' rf'' Ha Hstep Hf _ IH];
    intros fuel acc Hlen; (destruct fuel as [| fuel]; [simpl in Hlen; lia |]);
    simpl; rewrite Ha; simpl; rewrite Hstep, Hf.
  - reflexivity.
  - rewrite IH by (simpl in Hlen; lia). now rewrite <- app_assoc.
Qed.

(** *** What an episode looks like *)

Lemma episode_nonempty policy config t env rf obs raw ret new env' rf' :
  episode policy config t env rf obs raw ret new env' rf' -> (1 <= length new)%nat.
Proof. destruct 1; simpl; lia. Qed.

Lemma episode_done_at_end policy config t env rf obs raw ret new env' rf' :
  episode policy config t env rf obs raw ret new env' rf' -> done_at_end new.
Proof.
  induction 1 as [| t env rf obs raw ret a o r env' r' rf' rest env'' rf'' Ha Hstep Hf Hep IH].
  - reflexivity.
  - simpl. destruct rest as [| tr rest].
    + apply episode_nonempty in Hep. simpl in Hep. lia.
    + split; [reflexivity | exact IH].
Qed.

Lemma episode_running policy config t env rf obs raw ret new env' rf' :
  episode policy config t env rf obs raw ret new env' rf' ->
  running (discount_factor config) t raw ret new.
Proof. induction 1; simpl; auto. Qed.

Lemma episode_chained policy config t env rf obs raw ret new env' rf' :
  episode policy config t env rf obs raw ret new env' rf' -> chained obs new.
Proof. induction 1; simpl; auto. Qed.

Lemma episode_batches policy config t env rf obs raw ret new env' rf' :
  episode policy config t env rf obs raw ret new env' rf' -> Forall batch_of_one new.
Proof.
  induction 1 as [t env rf obs raw ret a o r env' r' rf' Ha Hstep Hf
                 | t env rf obs raw ret a o r env' r' rf' rest env'' rf'' Ha Hstep Hf _ IH];
    constructor; auto; apply compute_action_shape in Ha as [Hs Hl];
    (split; [exact Hs | simpl; unfold has_shape; simpl; now rewrite Hl]).
Qed.

Lemma episode_calls policy config t env rf obs raw ret new env' rf' :
  episode policy config t env rf obs raw ret new env' rf' ->
  calls env' = calls env ++ map (fun tr => CallStep (concat (action tr))) new.
Proof.
  induction 1 as [t env rf obs raw ret a o r env' r' rf' Ha Hstep Hf
                 | t env rf obs raw ret a o r env' r' rf' rest env'' rf'' Ha Hstep Hf _ IH];
    unfold step in Hstep;
    destruct (env_step (state env) a) as [[[o1 r1] d1] s1];
    injection Hstep as <- <- <- <-; simpl in *.
  - now rewrite app_nil_r.
  - rewrite IH. simpl. now rewrite <- app_assoc, app_nil_r.
Qed.

(** *** [rollouts] itself *)

Lemma rollouts_episode fuel env policy rf config trajs env' rf' :
  rollouts fuel env policy rf config = Ok (trajs, env', rf') ->
  episode policy config 0 (snd (reset env_reset env)) rf
          (newaxis (fst (reset env_reset env))) 0 0 trajs env' rf' /\
  (length trajs <= fuel)%nat.
Proof.
  unfold rollouts. destruct (reset env_reset env) as [o env1]. intros H.
  apply rollouts_loop_episode in H as (new & -> & Hep & Hlen). auto.
Qed.

Lemma episode_rollouts fuel env policy rf config trajs env' rf' :
  episode policy config 0 (snd (reset env_reset env)) rf
          (newaxis (fst (reset env_reset env))) 0 0 trajs env' rf' ->
  (length trajs <= fuel)%nat ->
  rollouts fuel env policy rf config = Ok (trajs, env', rf').
Proof.
  unfold rollouts. destruct (reset env_reset env) as [o env1]. simpl. intros Hep Hlen.
  now rewrite (episode_rollouts_loop _ _ _ _ _ _ _ _ _ _ _ Hep fuel []).
Qed.

End RolloutProperties.

(** *** Consequences of the shape predicates *)

Lemma done_at_end_map (trs : list Trajectory) :
  done_at_end trs -> map done trs = repeat false (length trs - 1) ++ [true].
Proof.
  induction trs as [| tr rest IH]; simpl; [contradiction |].
  destruct rest as [| tr' rest].
  - intros ->. reflexivity.
  - intros [Hd Hrest]. rewrite Hd, (IH Hrest). simpl. now rewrite Nat.sub_0_r.
Qed.

Lemma done_at_end_first (trs : list Trajectory) (tr : Trajectory) :
  done_at_end trs -> nth_error trs 0 = Some tr -> done tr = true ->
  length trs = 1%nat.
Proof.
  destruct trs as [| tr0 [| tr1 rest]]; simpl; try contradiction; auto.
  intros [Hd _] [= ->] Ht. congruence.
Qed.

Lemma running_step (gamma : Q) (trs : list Trajectory) :
  forall t raw ret i a b,
    running gamma t raw ret trs ->
    nth_error trs i = Some a -> nth_error trs (S i) = Some b ->
    raw_return b = raw_return a + reward b /\
    return_ b = return_ a + reward b * gamma ^ Z.of_nat (S (t + i)).
Proof.
  induction trs as [| tr rest IH]; intros t raw ret i a b Hrun Ha Hb.
  - destruct i; discriminate.
  - destruct Hrun as (_ & _ & Hrest). destruct i as [| i].
    + injection Ha as ->. destruct rest as [| tr' rest]; [discriminate |].
      injection Hb as ->. destruct Hrest as (Hraw & Hret & _).
      now rewrite Nat.add_0_r.
    + simpl in Ha, Hb. rewrite Nat.add_succ_r.
      exact (IH (S t) _ _ i a b Hrest Ha Hb).
Qed.

Lemma running_undiscounted (gamma : Q) (trs : list Trajectory) :
  gamma == 1 ->
  forall t raw ret,
    ret == raw ->
    running gamma t raw ret trs ->
    Forall (fun tr => return_ tr == raw_return tr) trs.
Proof.
  intros Hg. induction trs as [| tr rest IH]; intros t raw ret Heq Hrun;
    constructor; destruct Hrun as (Hraw & Hret & Hrest).
  - rewrite Hraw, Hret, Hg, Qpower_1, Heq. ring.
  - apply (IH (S t) (raw_return tr) (return_ tr)); [| exact Hrest].
    rewrite Hraw, Hret, Hg, Qpower_1, Heq. ring.
Qed.

Section RolloutClaims.

Context {EnvState : Type}
        (env_reset : EnvState -> vector * EnvState)
        (env_step : EnvState -> vector -> vector * Q * bool * EnvState)
        {FilterState : Type}
        (filter_call : FilterState -> Q -> Q * FilterState).

Local Abbreviation rollouts := (rollouts env_reset env_step filter_call).
Local Abbreviation episode := (episode env_step filter_call).

Lemma newaxis_fits (o : vector) : length o = 2%nat -> has_shape 1 2 (newaxis o) = true.
Proof. intros H. unfold has_shape, newaxis. simpl. now rewrite H. Qed.

Lemma terminating_episode policy config K s :
  (forall s a, length (fst (fst (fst (env_step s a)))) = 2%nat) ->
  terminates_after env_step K s ->
  forall t calls0 rf obs raw ret,
    has_shape 1 2 obs = true ->
    exists new env' rf',
      episode policy config t (mkEnv s calls0) rf obs raw ret new env' rf' /\
      length new = K.
Proof.
  intros Hfit. induction 1 as [s Hdone | k s Hnot Hlater IH];
    intros t calls0 rf obs raw ret Hobs;
    destruct (compute_action_accepts policy obs Hobs) as (a & Ha & _);
    destruct (step env_step (mkEnv s calls0) a) as [[[o r] d] env1] eqn:Hstep;
    destruct (filter_call rf r) as [r' rf1] eqn:Hf;
    pose proof Hstep as Hstep'; unfold step in Hstep'; simpl in Hstep';
    destruct (env_step s a) as [[[o1 r1] d1] s1] eqn:Hes;
    injection Hstep' as <- <- <- <-.
  - specialize (Hdone a). rewrite Hes in Hdone. simpl in Hdone. subst d1.
    do 3 eexists. split; [eapply episode_last; eauto | reflexivity].
  - pose proof (Hnot a) as Hd. rewrite Hes in Hd. simpl in Hd. subst d1.
    pose proof (Hfit s a) as Ho. rewrite Hes in Ho. simpl in Ho.
    specialize (IH a). rewrite Hes in IH. simpl in IH.
    destruct (IH (S t) (calls0 ++ [CallStep a]) rf1 (newaxis o1) (raw + r')
                 (ret + r' * discount_factor config ^ Z.of_nat t)
                 (newaxis_fits o1 Ho))
      as (rest & env'' & rf'' & Hep & Hlen).
    do 3 eexists. split; [eapply episode_more; eauto |]. simpl. now rewrite Hlen.
Qed.

(** C1. Against an environment that reports [done] on the K-th step of an
    episode and not before, a rollout with a budget of at least K steps
    returns exactly K trajectories: they are in step order (each starts at
    the observation the previous step ended in, the first at the reset
    observation, and the environment saw one reset and then their actions in
    that order), [done] is true on the last and false on all before. *)
Theorem rollouts_length_of_terminating_env
    (K fuel : nat) (env : Env EnvState) (policy : Variables)
    (rf : FilterState) (config : Config) :
  observations_fit env_reset env_step ->
  terminates_after env_step K (snd (env_reset (state env))) ->
  (K <= fuel)%nat ->
  exists trajs env' rf',
    rollouts fuel env policy rf config = Ok (trajs, env', rf') /\
    length trajs = K /\
    map done trajs = repeat false (K - 1) ++ [true] /\
    chained (newaxis (fst (env_reset (state env)))) trajs /\
    calls env' =
      calls env ++ CallReset :: map (fun tr => CallStep (concat (action tr))) trajs.
Proof.
  intros [Hreset Hstep] Hterm Hfuel.
  destruct (env_reset (state env)) as [o s] eqn:Hr. simpl in Hterm.
  pose proof (Hreset (state env)) as Ho. rewrite Hr in Ho. simpl in Ho.
  destruct (terminating_episode policy config K s Hstep Hterm 0%nat
              (calls env ++ [CallReset]) rf (newaxis o) 0 0 (newaxis_fits o Ho))
    as (trajs & env' & rf' & Hep & Hlen).
  exists trajs, env', rf'. split; [| split; [exact Hlen | split; [| split]]].
  - apply episode_rollouts; [| lia]. unfold reset. rewrite Hr. exact Hep.
  - rewrite <- Hlen. eapply done_at_end_map, episode_done_at_end; eauto.
  - simpl. eapply episode_chained; eauto.
  - rewrite (episode_calls _ _ _ _ _ _ _ _ _ _ _ _ _ Hep). simpl.
    now rewrite <- app_assoc.
Qed.

(** C10. A trajectory sequence returned by [rollouts] is never empty, and
    when its first entry already has [done = true] it is that entry alone. *)
Theorem rollouts_nonempty
    (fuel : nat) (env : Env EnvState) (policy : Variables) (rf : FilterState)
    (config : Config) (trajs : list Trajectory) (env' : Env EnvState)
    (rf' : FilterState) :
  rollouts fuel env policy rf config = Ok (trajs, env', rf') ->
  (1 <= length trajs)%nat /\
  (forall tr, nth_error trajs 0 = Some tr -> done tr = true -> length trajs = 1%nat).
Proof.
  intros H. apply rollouts_episode in H as [Hep _]. split.
  - eapply episode_nonempty; eauto.
  - intros tr. eapply done_at_end_first, episode_done_at_end; eauto.
Qed.

(** C2. In every rollout, [raw_return] of the first trajectory is its
    [reward], and [raw_return] of every later trajectory is [raw_return] of
    the one before plus its own [reward]. *)
Theorem raw_return_recurrence
    (fuel : nat) (env : Env EnvState) (policy : Variables) (rf : FilterState)
    (config : Config) (trajs : list Trajectory) (env' : Env EnvState)
    (rf' : FilterState) :
  rollouts fuel env policy rf config = Ok (trajs, env', rf') ->
  (forall tr, nth_error trajs 0 = Some tr -> raw_return tr == reward tr) /\
  (forall t a b,
      nth_error trajs t = Some a -> nth_error trajs (S t) = Some b ->
      raw_return b == raw_return a + reward b).
Proof.
  intros H. apply rollouts_episode in H as [Hep _].
  apply episode_running in Hep. split.
  - intros tr Htr. destruct trajs as [| tr0 rest]; [discriminate |].
    injection Htr as ->. destruct Hep as (-> & _). ring.
  - intros t a b Ha Hb.
    destruct (running_step _ _ _ _ _ _ _ _ Hep Ha Hb) as [-> _]. reflexivity.
Qed.

(** C3. With [discount_factor = 1] the discounted return equals the raw
    return in every trajectory of a rollout. *)
Theorem discounted_equals_raw_return
    (fuel : nat) (env : Env EnvState) (policy : Variables) (rf : FilterState)
    (config : Config) (trajs : list Trajectory) (env' : Env EnvState)
    (rf' : FilterState) :
  discount_factor config == 1 ->
  rollouts fuel env policy rf config = Ok (trajs, env', rf') ->
  Forall (fun tr => return_ tr == raw_return tr) trajs.
Proof.
  intros Hg H. apply rollouts_episode in H as [Hep _].
  apply episode_running in Hep.
  apply (running_undiscounted _ _ Hg 0%nat 0 0); [reflexivity | exact Hep].
Qed.

End RolloutClaims.

(** *** The claims on the stub environment *)

Lemma stub_observations_fit (k : nat) : observations_fit stub_reset (stub_step k).
Proof. split; reflexivity. Qed.

Lemma stub_terminates_after_three (s : nat) :
  terminates_after (stub_step 3) 3 (snd (stub_reset s)).
Proof.
  simpl. apply terminates_later; [reflexivity |]. intros a. simpl.
  apply terminates_later; [reflexivity |]. intros b. simpl.
  apply terminates_now. reflexivity.
Qed.

Lemma rollouts_length_of_terminating_env_witness :
  observations_fit stub_reset (stub_step 3) /\
  terminates_after (stub_step 3) 3 (snd (stub_reset (state (mkEnv 7%nat [])))) /\
  (3 <= 5)%nat /\
  exists trajs env' rf',
    rollouts stub_reset (stub_step 3) identity_filter 5 (mkEnv 7%nat [])
             zero_variables tt default_config = Ok (trajs, env', rf') /\
    length trajs = 3%nat /\
    map done trajs = repeat false (3 - 1) ++ [true] /\
    chained (newaxis (fst (stub_reset (state (mkEnv 7%nat []))))) trajs /\
    calls env' =
      calls (mkEnv 7%nat []) ++
      CallReset :: map (fun tr => CallStep (concat (action tr))) trajs.
Proof.
  split; [apply stub_observations_fit |].
  split; [apply stub_terminates_after_three |].
  split; [lia |].
  apply (rollouts_length_of_terminating_env stub_reset (stub_step 3) identity_filter
           3 5 (mkEnv 7%nat []) zero_variables tt default_config).
  - apply stub_observations_fit.
  - apply stub_terminates_after_three.
  - lia.
Defined.

Lemma rollouts_nonempty_witness :
  rollouts stub_reset (stub_step 1) identity_filter 5 (mkEnv 7%nat [])
           zero_variables tt default_config
  = Ok ([stub_trajectory 1 true 1 1], mkEnv 1%nat [CallReset; CallStep [0]], tt) /\
  (1 <= length [stub_trajectory 1 true 1 1])%nat /\
  (forall tr,
      nth_error [stub_trajectory 1 true 1 1] 0 = Some tr -> done tr = true ->
      length [stub_trajectory 1 true 1 1] = 1%nat).
Proof.
  assert (H : rollouts stub_reset (stub_step 1) identity_filter 5 (mkEnv 7%nat [])
                       zero_variables tt default_config
              = Ok ([stub_trajectory 1 true 1 1],
                    mkEnv 1%nat [CallReset; CallStep [0]], tt))
    by (vm_compute; reflexivity).
  split; [exact H |].
  exact (rollouts_nonempty stub_reset (stub_step 1) identity_filter _ _ _ _ _ _ _ _ H).
Defined.

Lemma raw_return_recurrence_witness :
  rollouts stub_reset (stub_step 3) identity_filter 5 (mkEnv 7%nat [])
           zero_variables tt default_config
  = Ok ([stub_trajectory 1 false 1 1;
         stub_trajectory 1 false 2 (1995 # 1000);
         stub_trajectory 1 true 3 (2985025000 # 1000000000)],
        mkEnv 3%nat [CallReset; CallStep [0]; CallStep [0]; CallStep [0]], tt) /\
  (forall tr,
      nth_error [stub_trajectory 1 false 1 1;
                 stub_trajectory 1 false 2 (1995 # 1000);
                 stub_trajectory 1 true 3 (2985025000 # 1000000000)] 0 = Some tr ->
      raw_return tr == reward tr) /\
  (forall t a b,
      nth_error [stub_trajectory 1 false 1 1;
                 stub_trajectory 1 false 2 (1995 # 1000);
                 stub_trajectory 1 true 3 (2985025000 # 1000000000)] t = Some a ->
      nth_error [stub_trajectory 1 false 1 1;
                 stub_trajectory 1 false 2 (1995 # 1000);
                 stub_trajectory 1 true 3 (2985025000 # 1000000000)] (S t) = Some b ->
      raw_return b == raw_return a + reward b).
Proof.
  assert (H : rollouts stub_reset (stub_step 3) identity_filter 5 (mkEnv 7%nat [])
                       zero_variables tt default_config
              = Ok ([stub_trajectory 1 false 1 1;
                     stub_trajectory 1 false 2 (1995 # 1000);
                     stub_trajectory 1 true 3 (2985025000 # 1000000000)],
                    mkEnv 3%nat [CallReset; CallStep [0]; CallStep [0]; CallStep [0]],
                    tt))
    by (vm_compute; reflexivity).
  split; [exact H |].
  exact (raw_return_recurrence stub_reset (stub_step 3) identity_filter
           _ _ _ _ _ _ _ _ H).
Defined.

Lemma discounted_equals_raw_return_witness :
  discount_factor undiscounted_config == 1 /\
  rollouts stub_reset (stub_step 3) identity_filter 5 (mkEnv 7%nat [])
           zero_variables tt undiscounted_config
  = Ok ([stub_trajectory 1 false 1 1;
         stub_trajectory 1 false 2 2;
         stub_trajectory 1 true 3 3],
        mkEnv 3%nat [CallReset; CallStep [0]; CallStep [0]; CallStep [0]], tt) /\
  Forall (fun tr => return_ tr == raw_return tr)
         [stub_trajectory 1 false 1 1;
          stub_trajectory 1 false 2 2;
          stub_trajectory 1 true 3 3].
Proof.
  assert (Hg : discount_factor undiscounted_config == 1) by reflexivity.
  assert (H : rollouts stub_reset (stub_step 3) identity_filter 5 (mkEnv 7%nat [])
                       zero_variables tt undiscounted_config
              = Ok ([stub_trajectory 1 false 1 1;
                     stub_trajectory 1 false 2 2;
                     stub_trajectory 1 true 3 3],
                    mkEnv 3%nat [CallReset; CallStep [0]; CallStep [0]; CallStep [0]],
                    tt))
    by (vm_compute; reflexivity).
  split; [exact Hg |]. split; [exact H |].
  exact (discounted_equals_raw_return stub_reset (stub_step 3) identity_filter
           _ _ _ _ _ _ _ _ Hg H).
Defined.

(** *** The concrete scenario *)

Lemma compute_action_stub (policy : Variables) :
  exists a, compute_action policy (newaxis [0; 0]) = Ok a.
Proof.
  destruct (compute_action_accepts policy (newaxis [0; 0]) eq_refl) as (a & Ha & _).
  now exists a.
Qed.

(** C4, as the claim states it, fails: with a normalising reward filter the
    stored rewards are not the environment's rewards.  Against the stub
    environment (reward 1, done on the third step) and the filter of
    section 4.1, the raw returns are [0, 0, 0] when the first sample is
    zero-centred and [1, 1, 1] when it is returned raw; in neither reading
    are they [1, 2, 3]. *)
Lemma scenario_raw_returns_with_normalising_filter :
  raw_returns (rollouts stub_reset (stub_step 3) (mean_std_filter false) 3
                        (mkEnv 0%nat []) zero_variables new_filter scenario_config)
  = Some [0; 0; 0] /\
  raw_returns (rollouts stub_reset (stub_step 3) (mean_std_filter true) 3
                        (mkEnv 0%nat []) zero_variables new_filter scenario_config)
  = Some [1; 1; 1] /\
  Qlist_eqb [0; 0; 0] [1; 2; 3] = false /\
  Qlist_eqb [1; 1; 1] [1; 2; 3] = false.
Proof. repeat split; vm_compute; reflexivity. Qed.

Section Scenario.

Context {FilterState : Type} (filter_call : FilterState -> Q -> Q * FilterState).

(** C4, amended. In the scenario (discount factor 0.995, stub environment
    with reward 1 and done on the third step) a rollout returns three
    trajectories whose rewards are what the reward filter returned for the
    three rewards 1, say r0, r1, r2; the raw returns are r0, r0 + r1,
    r0 + r1 + r2 and the last discounted return is
    r0 + 0.995 r1 + 0.995^2 r2.  They are 1, 2, 3 and 1 + 0.995 + 0.995^2
    when the filter returned each reward 1 unchanged. *)
Theorem scenario_returns
    (fuel : nat) (env : Env nat) (policy : Variables) (config : Config)
    (rf rf0 rf1 rf2 : FilterState) (r0 r1 r2 : Q) :
  discount_factor config = 995 # 1000 ->
  (3 <= fuel)%nat ->
  filter_call rf 1 = (r0, rf0) ->
  filter_call rf0 1 = (r1, rf1) ->
  filter_call rf1 1 = (r2, rf2) ->
  exists t0 t1 t2 env',
    rollouts stub_reset (stub_step 3) filter_call fuel env policy rf config
    = Ok ([t0; t1; t2], env', rf2) /\
    map reward [t0; t1; t2] = [r0; r1; r2] /\
    map done [t0; t1; t2] = [false; false; true] /\
    raw_return t0 == r0 /\
    raw_return t1 == r0 + r1 /\
    raw_return t2 == r0 + r1 + r2 /\
    return_ t2 == r0 + (995 # 1000) * r1 + (995 # 1000) ^ 2 * r2 /\
    (r0 == 1 -> r1 == 1 -> r2 == 1 ->
     raw_return t0 == 1 /\ raw_return t1 == 2 /\ raw_return t2 == 3 /\
     return_ t2 == 1 + (995 # 1000) + (995 # 1000) ^ 2).
Proof.
  intros Hg Hfuel H0 H1 H2.
  destruct (compute_action_stub policy) as (a & Ha).
  do 4 eexists. split.
  { apply episode_rollouts; [| simpl; exact Hfuel].
    unfold reset, stub_reset. cbn [fst snd].
    eapply episode_more; [exact Ha | reflexivity | exact H0 |].
    eapply episode_more; [exact Ha | reflexivity | exact H1 |].
    eapply episode_last; [exact Ha | reflexivity | exact H2]. }
  cbn [map reward done raw_return return_]. rewrite Hg.
  assert (E0 : 0 + r0 == r0) by ring.
  assert (E1 : 0 + r0 + r1 == r0 + r1) by ring.
  assert (E2 : 0 + r0 + r1 + r2 == r0 + r1 + r2) by ring.
  assert (E3 : 0 + r0 * (995 # 1000) ^ Z.of_nat 0 + r1 * (995 # 1000) ^ Z.of_nat 1
               + r2 * (995 # 1000) ^ Z.of_nat 2
               == r0 + (995 # 1000) * r1 + (995 # 1000) ^ 2 * r2)
    by (cbn [Z.of_nat Pos.of_succ_nat Pos.succ]; ring).
  do 6 (split; [solve [auto] |]).
  intros Hr0 Hr1 Hr2. rewrite E3, E2, E1, E0, Hr0, Hr1, Hr2.
  repeat split; reflexivity.
Qed.

End Scenario.

Lemma scenario_returns_witness :
  discount_factor scenario_config = 995 # 1000 /\
  (3 <= 3)%nat /\
  identity_filter tt 1 = (1, tt) /\
  exists t0 t1 t2 env',
    rollouts stub_reset (stub_step 3) identity_filter 3 (mkEnv 0%nat [])
             zero_variables tt scenario_config
    = Ok ([t0; t1; t2], env', tt) /\
    map reward [t0; t1; t2] = [1; 1; 1] /\
    map done [t0; t1; t2] = [false; false; true] /\
    raw_return t0 == 1 /\
    raw_return t1 == 1 + 1 /\
    raw_return t2 == 1 + 1 + 1 /\
    return_ t2 == 1 + (995 # 1000) * 1 + (995 # 1000) ^ 2 * 1 /\
    (1 == 1 -> 1 == 1 -> 1 == 1 ->
     raw_return t0 == 1 /\ raw_return t1 == 2 /\ raw_return t2 == 3 /\
     return_ t2 == 1 + (995 # 1000) + (995 # 1000) ^ 2).
Proof.
  split; [reflexivity |]. split; [lia |]. split; [reflexivity |].
  apply (scenario_returns identity_filter 3 (mkEnv 0%nat []) zero_variables
           scenario_config tt tt tt tt 1 1 1); try reflexivity; lia.
Defined.

(** ** The training loop *)

Lemma for_each_app {A S : Type} (body : S -> A -> result S) (l l' : list A) :
  forall s, for_each (l ++ l') body s = (s' <- for_each l body s ;; for_each l' body s').
Proof.
  induction l as [| x l IH]; intros s; simpl; [reflexivity |].
  destruct (body s x) as [s1 | e]; simpl; [apply IH | reflexivity].
Qed.

Lemma for_each_concat {A S : Type} (body : S -> A -> result S) (ls : list (list A)) :
  forall s,
    for_each ls (fun s l => for_each l body s) s = for_each (concat ls) body s.
Proof.
  induction ls as [| l ls IH]; intros s; simpl; [reflexivity |].
  rewrite for_each_app. destruct (for_each l body s) as [s1 | e]; simpl;
    [apply IH | reflexivity].
Qed.

Lemma not_finite_check (t : tensor) :
  not_finite t -> check_numerics t = Raise NumericError.
Proof.
  intros (row & x & Hrow & Hx & Hnf). unfold check_numerics.
  destruct (forallb (forallb is_finite) t) eqn:Hall; [| reflexivity].
  rewrite forallb_forall in Hall. specialize (Hall row Hrow).
  rewrite forallb_forall in Hall. specialize (Hall x Hx). congruence.
Qed.

Section TrainingClaims.

Context {EnvState : Type}
        (env_reset : EnvState -> vector * EnvState)
        (env_step : EnvState -> vector -> vector * Q * bool * EnvState)
        {FilterState : Type}
        (filter_call : FilterState -> Q -> Q * FilterState)
        (log_prob : Variables -> matrix -> matrix -> tensor)
        (apply_gradients : Variables -> matrix -> matrix -> Variables).

Local Abbreviation rollouts := (rollouts env_reset env_step filter_call).
Local Abbreviation episode := (episode env_step filter_call).
Local Abbreviation run_train_op := (run_train_op log_prob apply_gradients).
Local Abbreviation update := (update log_prob apply_gradients).
Local Abbreviation updates := (updates log_prob apply_gradients).
Local Abbreviation collect_episode := (collect_episode env_reset env_step filter_call).
Local Abbreviation sequential_rollouts :=
  (sequential_rollouts env_reset env_step filter_call).
Local Abbreviation _train :=
  (_train env_reset env_step filter_call log_prob apply_gradients).
Local Abbreviation next :=
  (next env_reset env_step filter_call log_prob apply_gradients).
Local Abbreviation drain :=
  (drain env_reset env_step filter_call log_prob apply_gradients).
Local Abbreviation iteration :=
  (iteration env_reset env_step filter_call log_prob apply_gradients).
Local Abbreviation iterations :=
  (iterations env_reset env_step filter_call log_prob apply_gradients).

(** X22. When the loss is NaN or Inf at some entry for the observation and
    action of a trajectory, the session run of the update on that trajectory
    raises the numeric error, and so does every pass over a sequence of
    trajectories that reaches it: the pass returns no losses. *)
Theorem update_raises_on_not_finite_loss (v : Variables) (tr : Trajectory) :
  fits 2 (observ tr) = true ->
  fits 1 (action tr) = true ->
  not_finite (log_prob v (observ tr) (action tr)) ->
  run_train_op v (observ tr) (action tr) = Raise NumericError /\
  (forall losses0 v0 before after losses,
      for_each before update (losses0, v0) = Ok (losses, v) ->
      for_each (before ++ tr :: after) update (losses0, v0) = Raise NumericError).
Proof.
  intros Ho Ha Hnf.
  assert (Hrun : run_train_op v (observ tr) (action tr) = Raise NumericError).
  { unfold run_train_op, feed, loss. rewrite Ho, Ha. simpl.
    now rewrite (not_finite_check _ Hnf). }
  split; [exact Hrun |].
  intros losses0 v0 before after losses Hbefore.
  rewrite for_each_app, Hbefore. simpl. now rewrite Hrun.
Qed.

(** C9. With [num_iters = 0] the generator yields nothing: the first [next]
    already stops, and the agent (the environment with the calls made on it,
    the policy's variables, the reward filter's statistics) is as it was. *)
Theorem train_zero_iterations (budget fuel : nat) (self : REINFORCE EnvState FilterState) :
  next fuel (train 0) self = Ok (None, train 0, self) /\
  drain (S budget) fuel (train 0) self = Ok ([], train 0, self).
Proof. split; reflexivity. Qed.

(** *** Every rollout returns *)

Lemma step_unfold (s : EnvState) (calls0 : list env_call) (a o : vector) (r : Q)
    (d : bool) (s1 : EnvState) :
  env_step s a = (o, r, d, s1) ->
  step env_step (mkEnv s calls0) a = (o, r, d, mkEnv s1 (calls0 ++ [CallStep a])).
Proof. intros H. unfold step. simpl. now rewrite H. Qed.

Lemma bounded_episode (steps_left : EnvState -> nat) policy config :
  (forall s a, length (fst (fst (fst (env_step s a)))) = 2%nat) ->
  (forall s a,
      (0 < steps_left s)%nat ->
      snd (fst (env_step s a)) = false ->
      (0 < steps_left (snd (env_step s a)) < steps_left s)%nat) ->
  forall n s t calls0 rf obs raw ret,
    (0 < steps_left s <= n)%nat ->
    has_shape 1 2 obs = true ->
    exists new env' rf',
      episode policy config t (mkEnv s calls0) rf obs raw ret new env' rf' /\
      (length new <= n)%nat.
Proof.
  intros Hfit Hdec. induction n as [| n IH];
    intros s t calls0 rf obs raw ret Hs Hobs; [lia |].
  destruct (compute_action_accepts policy obs Hobs) as (a & Ha & _).
  destruct (env_step s a) as [[[o r] d] s1] eqn:Hes.
  destruct (filter_call rf r) as [r' rf1] eqn:Hf.
  pose proof (step_unfold s calls0 a o r d s1 Hes) as Hstep.
  destruct d.
  - do 3 eexists. split; [eapply episode_last; eauto |]. simpl. lia.
  - pose proof (Hdec s a (proj1 Hs)) as Hlt. rewrite Hes in Hlt. simpl in Hlt.
    specialize (Hlt eq_refl).
    pose proof (Hfit s a) as Ho. rewrite Hes in Ho. simpl in Ho.
    destruct (IH s1 (S t) (calls0 ++ [CallStep a]) rf1 (newaxis o) (raw + r')
                 (ret + r' * discount_factor config ^ Z.of_nat t))
      as (rest & env'' & rf'' & Hep & Hlen); [lia | now apply newaxis_fits |].
    do 3 eexists. split; [eapply episode_more; eauto |]. simpl. lia.
Qed.

Lemma rollouts_total (bound fuel : nat) :
  observations_fit env_reset env_step ->
  bounded_episodes env_reset env_step bound ->
  (bound <= fuel)%nat ->
  forall env policy rf config,
    exists trajs env' rf',
      rollouts fuel env policy rf config = Ok (trajs, env', rf') /\
      (1 <= length trajs)%nat /\
      Forall batch_of_one trajs.
Proof.
  intros [Hreset Hfit] (steps_left & Hstart & Hdec) Hfuel env policy rf config.
  destruct (env_reset (state env)) as [o s] eqn:Hr.
  pose proof (Hreset (state env)) as Ho. rewrite Hr in Ho. simpl in Ho.
  pose proof (Hstart (state env)) as Hs. rewrite Hr in Hs. simpl in Hs.
  destruct (bounded_episode steps_left policy config Hfit Hdec bound s 0%nat
              (calls env ++ [CallReset]) rf (newaxis o) 0 0 Hs (newaxis_fits o Ho))
    as (trajs & env' & rf' & Hep & Hlen).
  exists trajs, env', rf'. split; [| split].
  - apply episode_rollouts; [| lia]. unfold reset. rewrite Hr. exact Hep.
  - eapply episode_nonempty; eauto.
  - eapply episode_batches; eauto.
Qed.

(** *** The two loops of [_train] *)

Lemma collect_episode_ok fuel policy config acc env rf i ep env1 rf1 :
  rollouts fuel env policy rf config = Ok (ep, env1, rf1) ->
  (1 <= length ep)%nat ->
  collect_episode fuel policy config (acc, env, rf) i = Ok (acc ++ [ep], env1, rf1).
Proof.
  intros Hroll Hlen. unfold collect_episode. rewrite Hroll. simpl.
  destruct ep as [| tr ep]; [simpl in Hlen; lia | reflexivity].
Qed.

Lemma collect_total (bound fuel : nat) policy config :
  observations_fit env_reset env_step ->
  bounded_episodes env_reset env_step bound ->
  (bound <= fuel)%nat ->
  forall n start acc env rf,
    exists eps env' rf',
      for_each (seq start n) (collect_episode fuel policy config) (acc, env, rf)
      = Ok (acc ++ eps, env', rf') /\
      sequential_rollouts fuel policy config n env rf eps env' rf' /\
      Forall (Forall batch_of_one) eps.
Proof.
  intros Hobs Hbound Hfuel. induction n as [| n IH]; intros start acc env rf.
  - exists [], env, rf. simpl. rewrite app_nil_r.
    split; [reflexivity |]. split; constructor.
  - destruct (rollouts_total bound fuel Hobs Hbound Hfuel env policy rf config)
      as (ep & env1 & rf1 & Hroll & Hlen & Hbatch).
    destruct (IH (S start) (acc ++ [ep]) env1 rf1)
      as (eps & env' & rf' & Hrest & Hseq & Hall).
    exists (ep :: eps), env', rf'. split; [| split].
    + cbn [seq for_each].
      rewrite (collect_episode_ok fuel policy config acc env rf start ep env1 rf1 Hroll Hlen).
      cbn [bind]. rewrite Hrest. now rewrite <- app_assoc.
    + econstructor; eauto.
    + constructor; assumption.
Qed.

Lemma forallb_false {A : Type} (p : A -> bool) (l : list A) :
  forallb p l = false -> exists x, In x l /\ p x = false.
Proof.
  induction l as [| x l IH]; simpl; [discriminate |].
  destruct (p x) eqn:Hx; simpl.
  - intros H. destruct (IH H) as (y & Hy & Hpy). exists y. auto.
  - intros _. exists x. auto.
Qed.

Lemma finite_check (t : tensor) : ~ not_finite t -> check_numerics t = Ok t.
Proof.
  intros Hfin. unfold check_numerics.
  destruct (forallb (forallb is_finite) t) eqn:Hall; [reflexivity |].
  exfalso. apply Hfin.
  apply forallb_false in Hall as (row & Hrow & Hall).
  apply forallb_false in Hall as (x & Hx & Hnf).
  now exists row, x.
Qed.

Lemma update_ok acc v tr :
  batch_of_one tr ->
  ~ not_finite (log_prob v (observ tr) (action tr)) ->
  update (acc, v) tr
  = Ok (acc ++ [log_prob v (observ tr) (action tr)],
        apply_gradients v (observ tr) (action tr)).
Proof.
  intros [Ho Ha] Hfin. unfold update, run_train_op, loss.
  rewrite (feed_has_shape 1 2 _ Ho), (feed_has_shape 1 1 _ Ha). simpl.
  now rewrite (finite_check _ Hfin).
Qed.

Lemma reset_observation (env : Env EnvState) :
  fst (reset env_reset env) = fst (env_reset (state env)).
Proof. unfold reset. now destruct (env_reset (state env)). Qed.

Lemma episode_safe (safe : matrix -> Prop) policy config :
  (forall o act,
      env_observation env_reset env_step o ->
      compute_action policy (newaxis o) = Ok act -> safe (newaxis act)) ->
  forall t env rf obs raw ret new env' rf',
    episode policy config t env rf obs raw ret new env' rf' ->
    forall o,
      obs = newaxis o -> env_observation env_reset env_step o ->
      Forall (fun tr => safe (action tr)) new.
Proof.
  intros Hsafe t env rf obs raw ret new env' rf'.
  induction 1 as [t env rf obs raw ret a o r env' r' rf' Ha Hstep Hf
                 | t env rf obs raw ret a o r env' r' rf' rest env'' rf'' Ha Hstep Hf _ IH];
    intros o0 -> Ho0.
  - constructor; [simpl; eauto | constructor].
  - constructor; [simpl; eauto |]. apply (IH o eq_refl).
    right. exists (state env), a. unfold step in Hstep.
    destruct (env_step (state env) a) as [[[o1 r1] d1] s1].
    now injection Hstep as -> _ _ _.
Qed.

Lemma rollouts_safe (safe : matrix -> Prop) fuel env policy rf config trajs env' rf' :
  (forall o act,
      env_observation env_reset env_step o ->
      compute_action policy (newaxis o) = Ok act -> safe (newaxis act)) ->
  rollouts fuel env policy rf config = Ok (trajs, env', rf') ->
  Forall (fun tr => safe (action tr)) trajs.
Proof.
  intros Hsafe H. apply rollouts_episode in H as [Hep _].
  eapply (episode_safe safe policy config Hsafe); [exact Hep | reflexivity |].
  left. exists (state env). apply reset_observation.
Qed.

Lemma sequential_safe (safe : matrix -> Prop) fuel policy config n env rf eps env' rf' :
  (forall o act,
      env_observation env_reset env_step o ->
      compute_action policy (newaxis o) = Ok act -> safe (newaxis act)) ->
  sequential_rollouts fuel policy config n env rf eps env' rf' ->
  Forall (Forall (fun tr => safe (action tr))) eps.
Proof.
  intros Hsafe. induction 1 as [| n env rf ep env1 rf1 eps env' rf' Hroll _ IH];
    constructor; auto.
  eapply rollouts_safe; eauto.
Qed.

Lemma updates_total (safe : matrix -> Prop) (Inv : Variables -> Prop) :
  (forall v o a, Inv v -> Inv (apply_gradients v o a)) ->
  (forall v o a, Inv v -> safe a -> ~ not_finite (log_prob v o a)) ->
  forall trs,
    Forall batch_of_one trs ->
    Forall (fun tr => safe (action tr)) trs ->
    forall acc v,
      Inv v ->
      exists losses v',
        for_each trs update (acc, v) = Ok (acc ++ losses, v') /\
        updates v trs losses v' /\
        Inv v'.
Proof.
  intros Hstep Hfin. induction 1 as [| tr trs Hbatch _ IH]; intros Hsafe acc v Hv.
  - exists [], v. simpl. rewrite app_nil_r. repeat split; auto. constructor.
  - inversion Hsafe as [| tr0 trs0 Htr Hrest]; subst.
    pose proof (Hfin v (observ tr) (action tr) Hv Htr) as Hok.
    destruct (IH Hrest (acc ++ [log_prob v (observ tr) (action tr)])
                 (apply_gradients v (observ tr) (action tr)) (Hstep _ _ _ Hv))
      as (losses & v' & Hloop & Hups & Hv').
    exists (log_prob v (observ tr) (action tr) :: losses), v'. split; [| split].
    + cbn [for_each]. rewrite (update_ok acc v tr Hbatch Hok).
      cbn [bind]. rewrite Hloop. now rewrite <- app_assoc.
    + destruct Hbatch as [Ho Ha]. econstructor; eauto. now apply finite_check.
    + exact Hv'.
Qed.

Lemma _train_total (bound fuel : nat) (safe : matrix -> Prop) (Inv : Variables -> Prop) :
  observations_fit env_reset env_step ->
  bounded_episodes env_reset env_step bound ->
  (bound <= fuel)%nat ->
  (forall v o a, Inv v -> Inv (apply_gradients v o a)) ->
  (forall v o act,
      Inv v -> env_observation env_reset env_step o ->
      compute_action v (newaxis o) = Ok act -> safe (newaxis act)) ->
  (forall v o a, Inv v -> safe a -> ~ not_finite (log_prob v o a)) ->
  forall self,
    Inv (policy self) ->
    exists losses self',
      _train fuel self = Ok (losses, self') /\
      iteration fuel self losses self' /\
      Inv (policy self').
Proof.
  intros Hobs Hbound Hfuel Hstep Hsafe Hfin self Hv.
  destruct (collect_total bound fuel (policy self) (config self) Hobs Hbound Hfuel
              (Z.to_nat (num_episodes (config self))) 0%nat [] (env self)
              (reward_filter self))
    as (eps & env' & rf' & Hcollect & Hseq & Hall).
  pose proof (sequential_safe safe _ _ _ _ _ _ _ _ _
                (fun o act => Hsafe (policy self) o act Hv) Hseq) as Hacts.
  destruct (updates_total safe Inv Hstep Hfin (concat eps)) with (acc := @nil tensor) (v := policy self)
    as (losses & v' & Hupd & Hups & Hv').
  { apply Forall_concat. exact Hall. }
  { apply Forall_concat. exact Hacts. }
  { exact Hv. }
  exists losses, (mkREINFORCE (config self) env' v' rf'). split; [| split].
  - unfold _train, range. rewrite Hcollect. simpl.
    rewrite for_each_concat, Hupd. reflexivity.
  - exists eps. simpl. auto.
  - exact Hv'.
Qed.

Lemma drain_total (bound fuel : nat) (safe : matrix -> Prop) (Inv : Variables -> Prop) :
  observations_fit env_reset env_step ->
  bounded_episodes env_reset env_step bound ->
  (bound <= fuel)%nat ->
  (forall v o a, Inv v -> Inv (apply_gradients v o a)) ->
  (forall v o act,
      Inv v -> env_observation env_reset env_step o ->
      compute_action v (newaxis o) = Ok act -> safe (newaxis act)) ->
  (forall v o a, Inv v -> safe a -> ~ not_finite (log_prob v o a)) ->
  forall n start budget self,
    Inv (policy self) ->
    (n < budget)%nat ->
    exists lls self',
      drain budget fuel (mkGenerator (seq start n)) self
      = Ok (lls, mkGenerator [], self') /\
      length lls = n /\
      iterations fuel self lls self'.
Proof.
  intros Hobs Hbound Hfuel Hstep Hsafe Hfin.
  induction n as [| n IH]; intros start budget self Hv Hbudget;
    (destruct budget as [| budget]; [lia |]).
  - exists [], self. split; [reflexivity |]. split; [reflexivity | constructor].
  - destruct (_train_total bound fuel safe Inv Hobs Hbound Hfuel Hstep Hsafe Hfin self Hv)
      as (losses & self1 & Htrain & Hiter & Hv1).
    destruct (IH (S start) budget self1 Hv1) as (lls & self' & Hdrain & Hlen & Hiters);
      [lia |].
    exists (losses :: lls), self'. split; [| split].
    + simpl. unfold next at 1. simpl. rewrite Htrain. simpl.
      rewrite Hdrain. reflexivity.
    + simpl. now rewrite Hlen.
    + econstructor; eauto.
Qed.


End TrainingClaims.

(** *** The training claims on the stub collaborators *)

Lemma stub_bounded_episodes : bounded_episodes stub_reset (stub_step 3) 3.
Proof.
  exists (fun s => 3 - s)%nat. split.
  - intros s. simpl. lia.
  - intros s a Hs Hd. unfold stub_step in *. cbn [fst snd] in *.
    apply Nat.eqb_neq in Hd. lia.
Qed.

Lemma source_loss_finite (value : Q -> Q) (v : Variables) (o a : matrix) :
  below_one a -> ~ not_finite (source_loss value v o a).
Proof.
  intros Ha (row & x & Hrow & Hx & Hnf). unfold source_loss in Hrow.
  apply in_map_iff in Hrow as (arow & <- & Harow).
  apply in_map_iff in Hx as (c & <- & Hc).
  unfold below_one in Ha. rewrite Forall_forall in Ha.
  specialize (Ha arow Harow). rewrite Forall_forall in Ha. specialize (Ha c Hc).
  rewrite (proj1 (Qlt_alt c 1) Ha) in Hnf. discriminate.
Qed.

Lemma source_loss_at_one (value : Q -> Q) (v : Variables) (o : matrix) :
  not_finite (source_loss value v o [[1]]).
Proof.
  exists [Inf false], (Inf false). simpl. repeat split; left; reflexivity.
Qed.

Lemma update_raises_on_not_finite_loss_witness :
  fits 2 (observ saturated_trajectory) = true /\
  fits 1 (action saturated_trajectory) = true /\
  not_finite (source_loss (fun _ => 0) saturating_variables
                          (observ saturated_trajectory)
                          (action saturated_trajectory)) /\
  run_train_op (source_loss (fun _ => 0)) no_step saturating_variables
               (observ saturated_trajectory)
               (action saturated_trajectory) = Raise NumericError /\
  (forall losses0 v0 before after losses,
      for_each before (update (source_loss (fun _ => 0)) no_step) (losses0, v0)
      = Ok (losses, saturating_variables) ->
      for_each (before ++ saturated_trajectory :: after)
               (update (source_loss (fun _ => 0)) no_step) (losses0, v0)
      = Raise NumericError).
Proof.
  split; [reflexivity |]. split; [reflexivity |].
  split; [apply source_loss_at_one |].
  apply (update_raises_on_not_finite_loss (source_loss (fun _ => 0)) no_step
           saturating_variables saturated_trajectory).
  - reflexivity.
  - reflexivity.
  - apply source_loss_at_one.
Defined.


(** * Further properties of the code *)

(** ** Rollouts: returns, flags, shapes, calls *)

Lemma running_closed (gamma : Q) (trs : list Trajectory) :
  forall t raw ret,
    running gamma t raw ret trs ->
    forall i tr,
      nth_error trs i = Some tr ->
      raw_return tr == raw + sum (firstn (S i) (map reward trs)) /\
      return_ tr == ret + sum (firstn (S i) (discounted gamma t (map reward trs))).
Proof.
  induction trs as [| a rest IH]; intros t raw ret Hrun i tr Hi.
  - destruct i; discriminate.
  - destruct Hrun as (Hraw & Hret & Hrest). destruct i as [| i].
    + injection Hi as <-. rewrite Hraw, Hret. simpl. split; ring.
    + simpl in Hi. destruct (IH _ _ _ Hrest i tr Hi) as [Er Ed].
      rewrite Er, Ed, Hraw, Hret.
      change (firstn (S (S i)) (map reward (a :: rest)))
        with (reward a :: firstn (S i) (map reward rest)).
      change (firstn (S (S i)) (discounted gamma t (map reward (a :: rest))))
        with (reward a * gamma ^ Z.of_nat t
              :: firstn (S i) (discounted gamma (S t) (map reward rest))).
      simpl sum. split; ring.
Qed.

Lemma chained_step (trs : list Trajectory) :
  forall obs i a b,
    chained obs trs ->
    nth_error trs i = Some a -> nth_error trs (S i) = Some b ->
    observ b = next_observ a.
Proof.
  induction trs as [| tr rest IH]; intros obs i a b Hch Ha Hb.
  - destruct i; discriminate.
  - destruct Hch as [_ Hrest]. destruct i as [| i].
    + injection Ha as ->. destruct rest as [| tr' rest]; [discriminate |].
      injection Hb as ->. now destruct Hrest.
    + exact (IH _ i a b Hrest Ha Hb).
Qed.

Section RolloutExtras.

Context {EnvState : Type}
        (env_reset : EnvState -> vector * EnvState)
        (env_step : EnvState -> vector -> vector * Q * bool * EnvState)
        {FilterState : Type}
        (filter_call : FilterState -> Q -> Q * FilterState).

Local Abbreviation rollouts_loop := (rollouts_loop env_step filter_call).
Local Abbreviation rollouts := (rollouts env_reset env_step filter_call).
Local Abbreviation episode := (episode env_step filter_call).

(** X1. The discounted return of the first trajectory of a rollout is its
    reward, and that of the trajectory at step t + 1 is the one at step t
    plus the reward of step t + 1 times discount_factor ^ (t + 1). *)
Theorem return_recurrence
    (fuel : nat) (env : Env EnvState) (policy : Variables) (rf : FilterState)
    (config : Config) (trajs : list Trajectory) (env' : Env EnvState)
    (rf' : FilterState) :
  rollouts fuel env policy rf config = Ok (trajs, env', rf') ->
  (forall tr, nth_error trajs 0 = Some tr -> return_ tr == reward tr) /\
  (forall t a b,
      nth_error trajs t = Some a -> nth_error trajs (S t) = Some b ->
      return_ b == return_ a + reward b * discount_factor config ^ Z.of_nat (S t)).
Proof.
  intros H. apply rollouts_episode in H as [Hep _].
  apply episode_running in Hep. split.
  - intros tr Htr. destruct trajs as [| tr0 rest]; [discriminate |].
    injection Htr as ->. destruct Hep as (_ & -> & _). simpl. ring.
  - intros t a b Ha Hb.
    destruct (running_step _ _ _ _ _ _ _ _ Hep Ha Hb) as [_ ->]. reflexivity.
Qed.

(** X2. In a rollout the raw return at step t is the sum of the rewards of
    the steps 0..t, and the discounted return is the sum of those rewards,
    the i-th weighted by discount_factor ^ i. *)
Theorem returns_closed_form
    (fuel : nat) (env : Env EnvState) (policy : Variables) (rf : FilterState)
    (config : Config) (trajs : list Trajectory) (env' : Env EnvState)
    (rf' : FilterState) :
  rollouts fuel env policy rf config = Ok (trajs, env', rf') ->
  forall t tr,
    nth_error trajs t = Some tr ->
    raw_return tr == sum (firstn (S t) (map reward trajs)) /\
    return_ tr ==
      sum (firstn (S t) (discounted (discount_factor config) 0 (map reward trajs))).
Proof.
  intros H t tr Ht. apply rollouts_episode in H as [Hep _].
  apply episode_running in Hep.
  destruct (running_closed _ _ _ _ _ Hep t tr Ht) as [-> ->]. split; ring.
Qed.

(** X3. Whatever the environment, a returned rollout has [done = true] on
    its last trajectory and [done = false] on all before it. *)
Theorem rollouts_done_only_last
    (fuel : nat) (env : Env EnvState) (policy : Variables) (rf : FilterState)
    (config : Config) (trajs : list Trajectory) (env' : Env EnvState)
    (rf' : FilterState) :
  rollouts fuel env policy rf config = Ok (trajs, env', rf') ->
  map done trajs = repeat false (length trajs - 1) ++ [true].
Proof.
  intros H. apply rollouts_episode in H as [Hep _].
  eapply done_at_end_map, episode_done_at_end; eauto.
Qed.

Lemma episode_next_observ policy config t env rf obs raw ret new env' rf' :
  episode policy config t env rf obs raw ret new env' rf' ->
  Forall (fun tr => length (next_observ tr) = 1%nat) new.
Proof. induction 1; constructor; auto. Qed.

(** X4. Every trajectory of a rollout holds batches of one: an observation
    of shape (1, 2), an action of shape (1, 1) and one next observation. *)
Theorem rollouts_batches_of_one
    (fuel : nat) (env : Env EnvState) (policy : Variables) (rf : FilterState)
    (config : Config) (trajs : list Trajectory) (env' : Env EnvState)
    (rf' : FilterState) :
  rollouts fuel env policy rf config = Ok (trajs, env', rf') ->
  Forall (fun tr =>
            has_shape 1 2 (observ tr) = true /\
            has_shape 1 1 (action tr) = true /\
            length (next_observ tr) = 1%nat) trajs.
Proof.
  intros H. apply rollouts_episode in H as [Hep _].
  pose proof (episode_batches _ _ _ _ _ _ _ _ _ _ _ _ _ Hep) as Hb.
  pose proof (episode_next_observ _ _ _ _ _ _ _ _ _ _ _ Hep) as Hn.
  rewrite Forall_forall in *. intros tr Hin.
  destruct (Hb tr Hin) as [Ho Ha]. auto.
Qed.

(** X5. The first trajectory of a rollout starts at the observation the
    reset returned, as a batch of one, and every later trajectory starts at
    the next observation of the one before. *)
Theorem rollouts_observations_chained
    (fuel : nat) (env : Env EnvState) (policy : Variables) (rf : FilterState)
    (config : Config) (trajs : list Trajectory) (env' : Env EnvState)
    (rf' : FilterState) :
  rollouts fuel env policy rf config = Ok (trajs, env', rf') ->
  (forall tr, nth_error trajs 0 = Some tr ->
              observ tr = [fst (env_reset (state env))]) /\
  (forall t a b,
      nth_error trajs t = Some a -> nth_error trajs (S t) = Some b ->
      observ b = next_observ a).
Proof.
  intros H. apply rollouts_episode in H as [Hep _].
  apply episode_chained in Hep. split.
  - intros tr Htr. destruct trajs as [| tr0 rest]; [discriminate |].
    injection Htr as ->. destruct Hep as [-> _].
    unfold reset. now destruct (env_reset (state env)).
  - intros t a b. eapply chained_step; eauto.
Qed.

(** X6. A rollout calls the environment's reset once and then step once per
    trajectory, in order, each time with the action stored in that
    trajectory; it makes no other call. *)
Theorem rollouts_calls
    (fuel : nat) (env : Env EnvState) (policy : Variables) (rf : FilterState)
    (config : Config) (trajs : list Trajectory) (env' : Env EnvState)
    (rf' : FilterState) :
  rollouts fuel env policy rf config = Ok (trajs, env', rf') ->
  calls env' =
    calls env ++ CallReset :: map (fun tr => CallStep (concat (action tr))) trajs.
Proof.
  intros H. apply rollouts_episode in H as [Hep _].
  rewrite (episode_calls _ _ _ _ _ _ _ _ _ _ _ _ _ Hep).
  unfold reset. destruct (env_reset (state env)). simpl. now rewrite <- app_assoc.
Qed.

End RolloutExtras.

(** ** Rollouts: failures, bounds and what is read *)

Lemma inject_succ (n : nat) :
  inject_Z (Z.of_nat (S n)) == inject_Z (Z.of_nat n) + 1.
Proof. rewrite Nat2Z.inj_succ. unfold Z.succ. now rewrite inject_Z_plus. Qed.

Lemma Qpower_succ (q : Q) (t : nat) :
  q ^ Z.of_nat (S t) == q ^ Z.of_nat t * q.
Proof.
  rewrite Nat2Z.inj_succ. unfold Z.succ.
  rewrite Qpower_plus' by lia. now rewrite Qpower_1_r.
Qed.

Lemma Qpower_unit_interval (q : Q) (t : nat) :
  0 <= q <= 1 -> 0 <= q ^ Z.of_nat t <= 1.
Proof.
  intros [H0 H1]. induction t as [| t [IH0 IH1]].
  - simpl. split; discriminate.
  - rewrite Qpower_succ. split.
    + now apply Qmult_le_0_compat.
    + apply Qle_trans with (1 * q); [| lra].
      apply Qmult_le_compat_r; assumption.
Qed.

Lemma scaled_within (c r p : Q) :
  0 <= p <= 1 -> - c <= r <= c -> - c <= r * p <= c.
Proof.
  intros [Hp0 Hp1] [Hr0 Hr1].
  assert (Hc : 0 <= c) by lra.
  assert (H1 : 0 <= (c - r) * p) by (apply Qmult_le_0_compat; lra).
  assert (H2 : 0 <= (c + r) * p) by (apply Qmult_le_0_compat; lra).
  assert (H3 : 0 <= c * (1 - p)) by (apply Qmult_le_0_compat; lra).
  split.
  - setoid_replace (r * p) with ((c + r) * p + c * (1 - p) - c) by ring. lra.
  - setoid_replace (r * p) with (c - (c - r) * p - c * (1 - p)) by ring. lra.
Qed.

Lemma running_bounded (gamma c : Q) (trs : list Trajectory) :
  0 <= gamma <= 1 ->
  Forall (fun tr => - c <= reward tr <= c) trs ->
  forall t raw ret bound,
    running gamma t raw ret trs ->
    - bound <= raw <= bound ->
    - bound <= ret <= bound ->
    forall i tr,
      nth_error trs i = Some tr ->
      - (bound + c * inject_Z (Z.of_nat (S i))) <= raw_return tr
        <= bound + c * inject_Z (Z.of_nat (S i)) /\
      - (bound + c * inject_Z (Z.of_nat (S i))) <= return_ tr
        <= bound + c * inject_Z (Z.of_nat (S i)).
Proof.
  intros Hg. induction 1 as [| a rest Ha _ IH];
    intros t raw ret bound Hrun Hraw Hret i tr Hi.
  - destruct i; discriminate.
  - destruct Hrun as (Eraw & Eret & Hrest).
    pose proof (scaled_within c (reward a) (gamma ^ Z.of_nat t)
                  (Qpower_unit_interval gamma t Hg) Ha) as Hs.
    assert (Hraw' : - (bound + c) <= raw_return a <= bound + c)
      by (rewrite Eraw; lra).
    assert (Hret' : - (bound + c) <= return_ a <= bound + c)
      by (rewrite Eret; lra).
    destruct i as [| i].
    + injection Hi as <-.
      setoid_replace (inject_Z (Z.of_nat 1)) with 1 by reflexivity.
      setoid_replace (bound + c * 1) with (bound + c) by ring. auto.
    + simpl in Hi.
      pose proof (IH (S t) _ _ (bound + c) Hrest Hraw' Hret' i tr Hi) as Hb.
      rewrite (inject_succ (S i)).
      setoid_replace (bound + c * (inject_Z (Z.of_nat (S i)) + 1))
        with (bound + c + c * inject_Z (Z.of_nat (S i))) by ring.
      exact Hb.
Qed.

Lemma running_myopic (gamma : Q) (trs : list Trajectory) :
  gamma == 0 ->
  forall t raw ret,
    running gamma (S t) raw ret trs ->
    Forall (fun tr => return_ tr == ret) trs.
Proof.
  intros Hg. induction trs as [| a rest IH]; intros t raw ret Hrun; constructor;
    destruct Hrun as (_ & Eret & Hrest).
  - rewrite Eret, Hg, Qpower_0 by lia. ring.
  - assert (E : return_ a == ret) by (rewrite Eret, Hg, Qpower_0 by lia; ring).
    eapply Forall_impl; [| exact (IH _ _ _ Hrest)].
    intros tr Htr. simpl in Htr. now rewrite Htr.
Qed.

Section RolloutEdges.

Context {EnvState : Type}
        (env_reset : EnvState -> vector * EnvState)
        (env_step : EnvState -> vector -> vector * Q * bool * EnvState)
        {FilterState : Type}
        (filter_call : FilterState -> Q -> Q * FilterState).

Local Abbreviation rollouts_loop := (rollouts_loop env_step filter_call).
Local Abbreviation rollouts := (rollouts env_reset env_step filter_call).
Local Abbreviation episode := (episode env_step filter_call).

(** X7. When the observation returned by the reset does not have two
    components, a rollout raises the error of [compute_action]'s assertion
    and returns no trajectories, for every loop budget of at least one pass
    and whatever the environment's step and the reward filter are. *)
Theorem rollouts_rejects_observation
    (fuel : nat) (env : Env EnvState) (policy : Variables) (rf : FilterState)
    (config : Config) :
  length (fst (env_reset (state env))) <> 2%nat ->
  rollouts (S fuel) env policy rf config = Raise AssertionError.
Proof.
  intros Hlen. unfold rollouts, reset.
  destruct (env_reset (state env)) as [o s]. simpl in Hlen.
  cbn [rollouts_loop]. rewrite compute_action_rejects; [reflexivity |].
  unfold has_shape, fits, newaxis. simpl.
  apply Nat.eqb_neq in Hlen. now rewrite Hlen.
Qed.

Lemma rollouts_loop_endless policy config :
  (forall s a, length (fst (fst (fst (env_step s a)))) = 2%nat) ->
  (forall s a, snd (fst (env_step s a)) = false) ->
  forall fuel t env rf obs raw ret acc,
    has_shape 1 2 obs = true ->
    rollouts_loop fuel policy config t env rf obs raw ret acc = Raise OutOfFuel.
Proof.
  intros Hfit Hnever. induction fuel as [| fuel IH];
    intros t env rf obs raw ret acc Hobs; [reflexivity |].
  cbn [rollouts_loop].
  destruct (compute_action_accepts policy obs Hobs) as (a & Ha & _).
  rewrite Ha. cbn [bind]. unfold step.
  pose proof (Hfit (state env) a) as Ho. pose proof (Hnever (state env) a) as Hd.
  destruct (env_step (state env) a) as [[[o r] d] s1]. simpl in Ho, Hd. subst d.
  destruct (filter_call rf r) as [r' rf1].
  apply IH. now apply newaxis_fits.
Qed.

(** X8. Against an environment that never reports [done] a rollout does
    not return: for every loop budget the loop is still running when the
    budget is used up. *)
Theorem rollouts_never_returns
    (fuel : nat) (env : Env EnvState) (policy : Variables) (rf : FilterState)
    (config : Config) :
  observations_fit env_reset env_step ->
  (forall s a, snd (fst (env_step s a)) = false) ->
  rollouts fuel env policy rf config = Raise OutOfFuel.
Proof.
  intros [Hreset Hfit] Hnever. unfold rollouts, reset.
  pose proof (Hreset (state env)) as Ho.
  destruct (env_reset (state env)) as [o s]. simpl in Ho.
  apply rollouts_loop_endless; auto. now apply newaxis_fits.
Qed.

Lemma episode_rewards_bounded (c : Q) policy config t env rf obs raw ret new env' rf' :
  (forall st x, - c <= fst (filter_call st x) <= c) ->
  episode policy config t env rf obs raw ret new env' rf' ->
  Forall (fun tr => - c <= reward tr <= c) new.
Proof.
  intros Hc.
  induction 1 as [t env rf obs raw ret a o r env' r' rf' Ha Hstep Hf
                 | t env rf obs raw ret a o r env' r' rf' rest env'' rf'' Ha Hstep Hf _ IH];
    constructor; auto; simpl; pose proof (Hc rf r) as Hb; rewrite Hf in Hb; exact Hb.
Qed.

(** X9. When the reward filter returns values in [-c, c] and the discount
    factor lies in [0, 1], the raw return and the discounted return at step
    t of a rollout both lie in [-c (t + 1), c (t + 1)]. *)
Theorem returns_bounded
    (c : Q) (fuel : nat) (env : Env EnvState) (policy : Variables)
    (rf : FilterState) (config : Config) (trajs : list Trajectory)
    (env' : Env EnvState) (rf' : FilterState) :
  (forall st x, - c <= fst (filter_call st x) <= c) ->
  0 <= discount_factor config <= 1 ->
  rollouts fuel env policy rf config = Ok (trajs, env', rf') ->
  forall t tr,
    nth_error trajs t = Some tr ->
    - (c * inject_Z (Z.of_nat (S t))) <= raw_return tr <= c * inject_Z (Z.of_nat (S t)) /\
    - (c * inject_Z (Z.of_nat (S t))) <= return_ tr <= c * inject_Z (Z.of_nat (S t)).
Proof.
  intros Hc Hg H t tr Ht. apply rollouts_episode in H as [Hep _].
  pose proof (episode_rewards_bounded c _ _ _ _ _ _ _ _ _ _ _ Hc Hep) as Hb.
  apply episode_running in Hep.
  assert (H0 : - 0 <= 0 <= 0) by (split; discriminate).
  pose proof (running_bounded _ c _ Hg Hb 0%nat 0 0 0 Hep H0 H0 t tr Ht) as Hr.
  setoid_replace (0 + c * inject_Z (Z.of_nat (S t)))
    with (c * inject_Z (Z.of_nat (S t))) in Hr by ring.
  exact Hr.
Qed.

(** X10. With [discount_factor = 0] the discounted return of every
    trajectory of a rollout is the reward of the first step: later rewards
    do not count. *)
Theorem returns_myopic
    (fuel : nat) (env : Env EnvState) (policy : Variables) (rf : FilterState)
    (config : Config) (trajs : list Trajectory) (env' : Env EnvState)
    (rf' : FilterState) :
  discount_factor config == 0 ->
  rollouts fuel env policy rf config = Ok (trajs, env', rf') ->
  forall first tr,
    nth_error trajs 0 = Some first -> In tr trajs ->
    return_ tr == reward first.
Proof.
  intros Hg H first tr Hfirst Hin. apply rollouts_episode in H as [Hep _].
  apply episode_running in Hep.
  destruct trajs as [| tr0 rest]; [discriminate |]. injection Hfirst as ->.
  destruct Hep as (_ & Eret & Hrest).
  assert (E : return_ first == reward first) by (rewrite Eret; simpl; ring).
  destruct Hin as [<- | Hin]; [exact E |].
  pose proof (running_myopic _ _ Hg _ _ _ Hrest) as Hall.
  rewrite Forall_forall in Hall. now rewrite (Hall tr Hin).
Qed.

Lemma rollouts_loop_reads_discount policy c1 c2 :
  discount_factor c1 = discount_factor c2 ->
  forall fuel t env rf obs raw ret acc,
    rollouts_loop fuel policy c1 t env rf obs raw ret acc
    = rollouts_loop fuel policy c2 t env rf obs raw ret acc.
Proof.
  intros Hd. induction fuel as [| fuel IH]; intros t env rf obs raw ret acc;
    [reflexivity |].
  cbn [rollouts_loop]. rewrite Hd.
  destruct (compute_action policy obs) as [a | e]; [| reflexivity]. cbn [bind].
  destruct (step env_step env a) as [[[o r] d] env1].
  destruct (filter_call rf r) as [r' rf1].
  destruct d; [reflexivity | apply IH].
Qed.

(** X11. Of the configuration a rollout reads only [discount_factor]: two
    configurations with the same discount factor give the same result. *)
Theorem rollouts_reads_discount_factor_only
    (fuel : nat) (env : Env EnvState) (policy : Variables) (rf : FilterState)
    (c1 c2 : Config) :
  discount_factor c1 = discount_factor c2 ->
  rollouts fuel env policy rf c1 = rollouts fuel env policy rf c2.
Proof.
  intros Hd. unfold rollouts. destruct (reset env_reset env) as [o env1].
  now apply rollouts_loop_reads_discount.
Qed.

Lemma episode_filter_calls policy config t env rf obs raw ret new env' rf' :
  episode policy config t env rf obs raw ret new env' rf' ->
  call_all filter_call rf
           (step_rewards env_step (state env)
                         (map (fun tr => concat (action tr)) new))
  = (map reward new, rf').
Proof.
  induction 1 as [t env rf obs raw ret a o r env' r' rf' Ha Hstep Hf
                 | t env rf obs raw ret a o r env' r' rf' rest env'' rf'' Ha Hstep Hf _ IH];
    unfold step in Hstep; simpl; rewrite app_nil_r;
    destruct (env_step (state env) a) as [[[o1 r1] d1] s1];
    injection Hstep as Eo Er Ed Eenv; subst o1 r1 d1 env'; simpl in *.
  - now rewrite Hf.
  - now rewrite Hf, IH.
Qed.

(** X12. A rollout calls the reward filter once per step and nowhere else:
    the stored rewards, and the statistics the filter is left with, are those
    of calling the filter, from the statistics it was given, on the rewards
    the environment returned for the stored actions, in order. *)
Theorem rollouts_filter_calls
    (fuel : nat) (env : Env EnvState) (policy : Variables) (rf : FilterState)
    (config : Config) (trajs : list Trajectory) (env' : Env EnvState)
    (rf' : FilterState) :
  rollouts fuel env policy rf config = Ok (trajs, env', rf') ->
  call_all filter_call rf
           (step_rewards env_step (snd (env_reset (state env)))
                         (map (fun tr => concat (action tr)) trajs))
  = (map reward trajs, rf').
Proof.
  intros H. apply rollouts_episode in H as [Hep _].
  rewrite <- (episode_filter_calls _ _ _ _ _ _ _ _ _ _ _ Hep).
  unfold reset. now destruct (env_reset (state env)).
Qed.

End RolloutEdges.

(** *** The rollout properties on the stub environment *)

Lemma stub_rollout :
  rollouts stub_reset (stub_step 3) identity_filter 5 (mkEnv 7%nat [])
           zero_variables tt default_config
  = Ok (stub_episode, stub_env_after, tt).
Proof. vm_compute. reflexivity. Qed.

Lemma return_recurrence_witness :
  rollouts stub_reset (stub_step 3) identity_filter 5 (mkEnv 7%nat [])
           zero_variables tt default_config
  = Ok (stub_episode, stub_env_after, tt) /\
  (forall tr, nth_error stub_episode 0 = Some tr -> return_ tr == reward tr) /\
  (forall t a b,
      nth_error stub_episode t = Some a -> nth_error stub_episode (S t) = Some b ->
      return_ b == return_ a + reward b * discount_factor default_config ^ Z.of_nat (S t)).
Proof.
  split; [exact stub_rollout |].
  exact (return_recurrence stub_reset (stub_step 3) identity_filter
           _ _ _ _ _ _ _ _ stub_rollout).
Defined.

Lemma returns_closed_form_witness :
  rollouts stub_reset (stub_step 3) identity_filter 5 (mkEnv 7%nat [])
           zero_variables tt default_config
  = Ok (stub_episode, stub_env_after, tt) /\
  forall t tr,
    nth_error stub_episode t = Some tr ->
    raw_return tr == sum (firstn (S t) (map reward stub_episode)) /\
    return_ tr ==
      sum (firstn (S t)
                  (discounted (discount_factor default_config) 0
                              (map reward stub_episode))).
Proof.
  split; [exact stub_rollout |].
  exact (returns_closed_form stub_reset (stub_step 3) identity_filter
           _ _ _ _ _ _ _ _ stub_rollout).
Defined.

Lemma rollouts_done_only_last_witness :
  rollouts stub_reset (stub_step 3) identity_filter 5 (mkEnv 7%nat [])
           zero_variables tt default_config
  = Ok (stub_episode, stub_env_after, tt) /\
  map done stub_episode = repeat false (length stub_episode - 1) ++ [true].
Proof.
  split; [exact stub_rollout |].
  exact (rollouts_done_only_last stub_reset (stub_step 3) identity_filter
           _ _ _ _ _ _ _ _ stub_rollout).
Defined.

Lemma rollouts_batches_of_one_witness :
  rollouts stub_reset (stub_step 3) identity_filter 5 (mkEnv 7%nat [])
           zero_variables tt default_config
  = Ok (stub_episode, stub_env_after, tt) /\
  Forall (fun tr =>
            has_shape 1 2 (observ tr) = true /\
            has_shape 1 1 (action tr) = true /\
            length (next_observ tr) = 1%nat) stub_episode.
Proof.
  split; [exact stub_rollout |].
  exact (rollouts_batches_of_one stub_reset (stub_step 3) identity_filter
           _ _ _ _ _ _ _ _ stub_rollout).
Defined.

Lemma rollouts_observations_chained_witness :
  rollouts stub_reset (stub_step 3) identity_filter 5 (mkEnv 7%nat [])
           zero_variables tt default_config
  = Ok (stub_episode, stub_env_after, tt) /\
  (forall tr, nth_error stub_episode 0 = Some tr ->
              observ tr = [fst (stub_reset (state (mkEnv 7%nat [])))]) /\
  (forall t a b,
      nth_error stub_episode t = Some a -> nth_error stub_episode (S t) = Some b ->
      observ b = next_observ a).
Proof.
  split; [exact stub_rollout |].
  exact (rollouts_observations_chained stub_reset (stub_step 3) identity_filter
           _ _ _ _ _ _ _ _ stub_rollout).
Defined.

Lemma rollouts_calls_witness :
  rollouts stub_reset (stub_step 3) identity_filter 5 (mkEnv 7%nat [])
           zero_variables tt default_config
  = Ok (stub_episode, stub_env_after, tt) /\
  calls stub_env_after =
    calls (mkEnv 7%nat []) ++
    CallReset :: map (fun tr => CallStep (concat (action tr))) stub_episode.
Proof.
  split; [exact stub_rollout |].
  exact (rollouts_calls stub_reset (stub_step 3) identity_filter
           _ _ _ _ _ _ _ _ stub_rollout).
Defined.

Lemma rollouts_rejects_observation_witness :
  length (fst (wide_reset (state (mkEnv 7%nat [])))) <> 2%nat /\
  rollouts wide_reset (stub_step 3) identity_filter (S 4) (mkEnv 7%nat [])
           zero_variables tt default_config
  = Raise AssertionError.
Proof.
  split; [simpl; lia |].
  apply (rollouts_rejects_observation wide_reset (stub_step 3) identity_filter
           4 (mkEnv 7%nat []) zero_variables tt default_config).
  simpl. lia.
Defined.

Lemma endless_observations_fit : observations_fit stub_reset endless_step.
Proof. split; reflexivity. Qed.

Lemma rollouts_never_returns_witness :
  observations_fit stub_reset endless_step /\
  (forall s a, snd (fst (endless_step s a)) = false) /\
  rollouts stub_reset endless_step identity_filter 1000 (mkEnv 7%nat [])
           zero_variables tt default_config
  = Raise OutOfFuel.
Proof.
  split; [apply endless_observations_fit |]. split; [reflexivity |].
  apply (rollouts_never_returns stub_reset endless_step identity_filter
           1000 (mkEnv 7%nat []) zero_variables tt default_config).
  - apply endless_observations_fit.
  - reflexivity.
Defined.

Lemma clip_filter_bounded (st : unit) (x : Q) :
  - (5) <= fst (clip_filter st x) <= 5.
Proof. apply clip_by_value_bounds. discriminate. Qed.

Lemma clipped_rollout :
  rollouts stub_reset (stub_step 3) clip_filter 5 (mkEnv 7%nat [])
           zero_variables tt default_config
  = Ok (stub_episode, stub_env_after, tt).
Proof. vm_compute. reflexivity. Qed.

Lemma default_discount_in_unit_interval : 0 <= discount_factor default_config <= 1.
Proof. split; discriminate. Qed.

Lemma returns_bounded_witness :
  (forall st x, - (5) <= fst (clip_filter st x) <= 5) /\
  0 <= discount_factor default_config <= 1 /\
  rollouts stub_reset (stub_step 3) clip_filter 5 (mkEnv 7%nat [])
           zero_variables tt default_config
  = Ok (stub_episode, stub_env_after, tt) /\
  forall t tr,
    nth_error stub_episode t = Some tr ->
    - (5 * inject_Z (Z.of_nat (S t))) <= raw_return tr <= 5 * inject_Z (Z.of_nat (S t)) /\
    - (5 * inject_Z (Z.of_nat (S t))) <= return_ tr <= 5 * inject_Z (Z.of_nat (S t)).
Proof.
  split; [exact clip_filter_bounded |].
  split; [exact default_discount_in_unit_interval |].
  split; [exact clipped_rollout |].
  exact (returns_bounded stub_reset (stub_step 3) clip_filter 5
           _ _ _ _ _ _ _ _ clip_filter_bounded default_discount_in_unit_interval
           clipped_rollout).
Defined.

Lemma myopic_rollout :
  rollouts stub_reset (stub_step 3) identity_filter 5 (mkEnv 7%nat [])
           zero_variables tt myopic_config
  = Ok ([stub_trajectory 1 false 1 1;
         stub_trajectory 1 false 2 1;
         stub_trajectory 1 true 3 1], stub_env_after, tt).
Proof. vm_compute. reflexivity. Qed.

Lemma returns_myopic_witness :
  discount_factor myopic_config == 0 /\
  rollouts stub_reset (stub_step 3) identity_filter 5 (mkEnv 7%nat [])
           zero_variables tt myopic_config
  = Ok ([stub_trajectory 1 false 1 1;
         stub_trajectory 1 false 2 1;
         stub_trajectory 1 true 3 1], stub_env_after, tt) /\
  forall first tr,
    nth_error [stub_trajectory 1 false 1 1;
               stub_trajectory 1 false 2 1;
               stub_trajectory 1 true 3 1] 0 = Some first ->
    In tr [stub_trajectory 1 false 1 1;
           stub_trajectory 1 false 2 1;
           stub_trajectory 1 true 3 1] ->
    return_ tr == reward first.
Proof.
  assert (Hg : discount_factor myopic_config == 0) by reflexivity.
  split; [exact Hg |]. split; [exact myopic_rollout |].
  exact (returns_myopic stub_reset (stub_step 3) identity_filter
           _ _ _ _ _ _ _ _ Hg myopic_rollout).
Defined.

Lemma rollouts_reads_discount_factor_only_witness :
  discount_factor default_config = discount_factor test_config /\
  rollouts stub_reset (stub_step 3) identity_filter 5 (mkEnv 7%nat [])
           zero_variables tt default_config
  = rollouts stub_reset (stub_step 3) identity_filter 5 (mkEnv 7%nat [])
             zero_variables tt test_config.
Proof.
  split; [reflexivity |].
  apply (rollouts_reads_discount_factor_only stub_reset (stub_step 3) identity_filter
           5 (mkEnv 7%nat []) zero_variables tt default_config test_config).
  reflexivity.
Defined.

Lemma rollouts_filter_calls_witness :
  rollouts stub_reset (stub_step 3) clip_filter 5 (mkEnv 7%nat [])
           zero_variables tt default_config
  = Ok (stub_episode, stub_env_after, tt) /\
  call_all clip_filter tt
           (step_rewards (stub_step 3) (snd (stub_reset (state (mkEnv 7%nat []))))
                         (map (fun tr => concat (action tr)) stub_episode))
  = (map reward stub_episode, tt).
Proof.
  split; [exact clipped_rollout |].
  exact (rollouts_filter_calls stub_reset (stub_step 3) clip_filter
           _ _ _ _ _ _ _ _ clipped_rollout).
Defined.

(** ** The policy's forward pass on any batch *)

Lemma clip_by_value_inside (t lo hi : Q) :
  lo <= t <= hi -> clip_by_value t lo hi == t.
Proof.
  intros [Hlo Hhi]. unfold clip_by_value.
  rewrite Q.max_l; rewrite (Q.min_l t hi Hhi); [reflexivity | exact Hlo].
Qed.

Lemma clip_by_value_above (t lo hi : Q) :
  lo <= hi -> hi <= t -> clip_by_value t lo hi == hi.
Proof.
  intros Hle Hhi. unfold clip_by_value.
  rewrite Q.max_l; rewrite (Q.min_r t hi Hhi); [reflexivity | exact Hle].
Qed.

Lemma clip_by_value_below (t lo hi : Q) :
  lo <= hi -> t <= lo -> clip_by_value t lo hi == lo.
Proof.
  intros Hle Hlo. unfold clip_by_value.
  apply Q.max_r. apply Qle_trans with t; [apply Q.le_min_l | exact Hlo].
Qed.

Lemma clip_by_value_odd (a b : Q) :
  a == - b -> clip_by_value a (-(1)) 1 == - clip_by_value b (-(1)) 1.
Proof.
  intros H.
  assert (H11 : -(1) <= 1) by discriminate.
  destruct (Qlt_le_dec b (-(1))) as [Hlow | Hlow].
  - rewrite (clip_by_value_below b _ _ H11) by lra.
    rewrite (clip_by_value_above a _ _ H11) by lra. reflexivity.
  - destruct (Qlt_le_dec 1 b) as [Hhigh | Hhigh].
    + rewrite (clip_by_value_above b _ _ H11) by lra.
      rewrite (clip_by_value_below a _ _ H11) by lra. reflexivity.
    + rewrite (clip_by_value_inside b) by (split; assumption).
      rewrite (clip_by_value_inside a) by (split; lra). exact H.
Qed.

Lemma Forall2_maps {A B C D : Type} (R : C -> D -> Prop) (f : A -> C) (g : B -> D)
    (l : list A) (l' : list B) :
  Forall2 (fun a b => R (f a) (g b)) l l' -> Forall2 R (map f l) (map g l').
Proof. induction 1; simpl; constructor; auto. Qed.

Lemma Forall2_same {A : Type} (R : A -> A -> Prop) (l : list A) :
  (forall a, R a a) -> Forall2 R l l.
Proof. intros H. induction l; constructor; auto. Qed.

Lemma sum_zero (l : list Q) : Forall (fun q => q == 0) l -> sum l == 0.
Proof.
  induction 1 as [| q l Hq _ IH]; simpl; [reflexivity |]. rewrite Hq, IH. ring.
Qed.

Lemma sum_opp (l l' : list Q) :
  Forall2 (fun a b => a == - b) l l' -> sum l == - sum l'.
Proof.
  induction 1 as [| a b l l' Hab _ IH]; simpl; [reflexivity |].
  rewrite Hab, IH. ring.
Qed.

Lemma combine_zero (x : vector) :
  Forall (fun q => q == 0) x ->
  forall s : list nat, Forall (fun ix => snd ix == 0) (combine s x).
Proof.
  induction 1 as [| q x Hq _ IH]; intros [| i s]; simpl; constructor; auto.
Qed.

Lemma combine_opp (x x' : vector) :
  Forall2 (fun a b => a == - b) x x' ->
  forall s : list nat,
    Forall2 (fun p q => fst p = fst q /\ snd p == - snd q) (combine s x) (combine s x').
Proof.
  induction 1 as [| a b x x' Hab _ IH]; intros [| i s]; simpl; constructor; auto.
Qed.

Lemma vecmat_zero (x : vector) (units : nat) (k : matrix) :
  Forall (fun q => q == 0) x -> Forall (fun q => q == 0) (vecmat x units k).
Proof.
  intros Hx. unfold vecmat. apply Forall_map, Forall_forall. intros j _.
  apply sum_zero, Forall_map.
  eapply Forall_impl; [| exact (combine_zero x Hx (seq 0 (length x)))].
  intros [i q] Hq. simpl in *. rewrite Hq. ring.
Qed.

Lemma vecmat_opp (x x' : vector) (units : nat) (k : matrix) :
  Forall2 (fun a b => a == - b) x x' ->
  Forall2 (fun a b => a == - b) (vecmat x units k) (vecmat x' units k).
Proof.
  intros Hx. unfold vecmat. apply Forall2_maps, Forall2_same. intros j.
  apply sum_opp, Forall2_maps. rewrite <- (Forall2_length Hx).
  eapply Forall2_impl; [| exact (combine_opp x x' Hx (seq 0 (length x)))].
  intros [i a] [i' b] [Hi Hab]. simpl in *. subst i'. rewrite Hab. ring.
Qed.

Lemma dense_zero (x : matrix) (units : nat) (k : matrix) :
  Forall (Forall (fun q => q == 0)) x ->
  Forall (Forall (fun q => q == 0)) (dense x units k).
Proof.
  intros Hx. unfold dense. apply Forall_map.
  eapply Forall_impl; [| exact Hx]. intros row. apply vecmat_zero.
Qed.

Lemma dense_opp (x x' : matrix) (units : nat) (k : matrix) :
  Forall2 (Forall2 (fun a b => a == - b)) x x' ->
  Forall2 (Forall2 (fun a b => a == - b)) (dense x units k) (dense x' units k).
Proof.
  intros Hx. unfold dense. apply Forall2_maps.
  eapply Forall2_impl; [| exact Hx]. intros row row'. apply vecmat_opp.
Qed.

Lemma model_zero (v : Variables) (x : matrix) :
  Forall (Forall (fun q => q == 0)) x ->
  Forall (Forall (fun q => q == 0)) (model v x).
Proof.
  intros Hx. unfold model. apply Forall_map.
  eapply Forall_impl; [| exact (dense_zero _ 1 (kernel_2 v)
                                  (dense_zero _ 100 (kernel_1 v)
                                     (dense_zero _ 100 (kernel v) Hx)))].
  intros row Hrow. apply Forall_map.
  eapply Forall_impl; [| exact Hrow].
  intros q Hq. simpl. rewrite clip_by_value_inside; [exact Hq |].
  rewrite Hq. split; discriminate.
Qed.

Lemma model_opp (v : Variables) (x x' : matrix) :
  Forall2 (Forall2 (fun a b => a == - b)) x x' ->
  Forall2 (Forall2 (fun a b => a == - b)) (model v x) (model v x').
Proof.
  intros Hx. unfold model. apply Forall2_maps.
  eapply Forall2_impl; [| exact (dense_opp _ _ 1 (kernel_2 v)
                                   (dense_opp _ _ 100 (kernel_1 v)
                                      (dense_opp _ _ 100 (kernel v) Hx)))].
  intros row row' Hrow. apply Forall2_maps.
  eapply Forall2_impl; [| exact Hrow].
  intros a b. apply clip_by_value_odd.
Qed.

Lemma negated (x : matrix) :
  Forall2 (Forall2 (fun a b => a == - b)) (map (map Qopp) x) x.
Proof.
  induction x as [| row x IH]; simpl; constructor; auto.
  induction row as [| q row IHrow]; simpl; constructor; auto. reflexivity.
Qed.

Lemma has_shape_negated (n m : nat) (x : matrix) :
  has_shape n m (map (map Qopp) x) = has_shape n m x.
Proof.
  unfold has_shape, fits. rewrite length_map. f_equal.
  induction x as [| row x IH]; simpl; [reflexivity |].
  now rewrite length_map, IH.
Qed.

(** X13. On a batch of any size N the forward pass of the policy, in
    float32, gives N rows of one entry each, and every entry lies in [-1, 1]
    or is NaN. *)
Theorem model32_batch (v : Variables32) (x : matrix32) :
  has_shape32 (length x) 1 (model32 v x) = true /\
  Forall (Forall (fun c => c = S754_nan \/ f32_within_unit c)) (model32 v x).
Proof.
  split; [| apply model32_range].
  apply has_shape32_true. apply model32_rows.
Qed.


(** X15. The forward pass is odd: on the negated observation
    [compute_action] returns the negated action. *)
Theorem compute_action_odd (v : Variables) (observ : matrix) :
  has_shape 1 2 observ = true ->
  exists a a',
    compute_action v observ = Ok a /\
    compute_action v (map (map Qopp) observ) = Ok a' /\
    Forall2 (fun p q => p == - q) a' a.
Proof.
  intros Hs.
  destruct (compute_action_accepts v observ Hs) as (a & Ha & Hm).
  assert (Hs' : has_shape 1 2 (map (map Qopp) observ) = true)
    by now rewrite has_shape_negated.
  destruct (compute_action_accepts v _ Hs') as (a' & Ha' & Hm').
  exists a, a'. split; [exact Ha |]. split; [exact Ha' |].
  pose proof (model_opp v _ _ (negated observ)) as H.
  rewrite Hm, Hm' in H. now inversion H.
Qed.


Lemma compute_action_odd_witness :
  has_shape 1 2 [[1 # 2; -(3)]] = true /\
  exists a a',
    compute_action some_variables [[1 # 2; -(3)]] = Ok a /\
    compute_action some_variables (map (map Qopp) [[1 # 2; -(3)]]) = Ok a' /\
    Forall2 (fun p q => p == - q) a' a.
Proof.
  split; [reflexivity |].
  exact (compute_action_odd some_variables [[1 # 2; -(3)]] eq_refl).
Defined.

(** ** The training loop: what one iteration does *)

Lemma feed_ok (m : nat) (x y : matrix) :
  feed m x = Ok y -> y = x /\ fits m x = true.
Proof.
  unfold feed. destruct (fits m x); [| discriminate]. intros [= <-]. auto.
Qed.

Lemma check_numerics_ok (t l : tensor) :
  check_numerics t = Ok l -> l = t /\ ~ not_finite t.
Proof.
  unfold check_numerics. destruct (forallb (forallb is_finite) t) eqn:Hall;
    [| discriminate].
  intros [= <-]. split; [reflexivity |].
  intros (row & x & Hrow & Hx & Hnf).
  rewrite forallb_forall in Hall. specialize (Hall row Hrow).
  rewrite forallb_forall in Hall. specialize (Hall x Hx). congruence.
Qed.

Lemma concat_length_ge {A : Type} (ls : list (list A)) :
  Forall (fun l => (1 <= length l)%nat) ls -> (length ls <= length (concat ls))%nat.
Proof.
  induction 1 as [| l ls Hl _ IH]; simpl; [lia |]. rewrite length_app. lia.
Qed.

Lemma count_resets_app (cs cs' : list env_call) :
  count_resets (cs ++ cs') = (count_resets cs + count_resets cs')%nat.
Proof. unfold count_resets. now rewrite filter_app, length_app. Qed.

Lemma count_steps_app (cs cs' : list env_call) :
  count_steps (cs ++ cs') = (count_steps cs + count_steps cs')%nat.
Proof. unfold count_steps. now rewrite filter_app, length_app. Qed.

Lemma count_steps_only {A : Type} (f : A -> vector) (l : list A) :
  count_resets (map (fun x => CallStep (f x)) l) = 0%nat /\
  count_steps (map (fun x => CallStep (f x)) l) = length l.
Proof.
  unfold count_resets, count_steps.
  induction l as [| x l [IH0 IH1]]; simpl; [auto |]. now rewrite IH0, IH1.
Qed.

Section TrainingExtras.

Context {EnvState : Type}
        (env_reset : EnvState -> vector * EnvState)
        (env_step : EnvState -> vector -> vector * Q * bool * EnvState)
        {FilterState : Type}
        (filter_call : FilterState -> Q -> Q * FilterState)
        (log_prob : Variables -> matrix -> matrix -> tensor)
        (apply_gradients : Variables -> matrix -> matrix -> Variables).

Local Abbreviation rollouts := (rollouts env_reset env_step filter_call).
Local Abbreviation episode := (episode env_step filter_call).
Local Abbreviation run_train_op := (run_train_op log_prob apply_gradients).
Local Abbreviation update := (update log_prob apply_gradients).
Local Abbreviation updates := (updates log_prob apply_gradients).
Local Abbreviation collect_episode := (collect_episode env_reset env_step filter_call).
Local Abbreviation sequential_rollouts :=
  (sequential_rollouts env_reset env_step filter_call).
Local Abbreviation _train :=
  (_train env_reset env_step filter_call log_prob apply_gradients).
Local Abbreviation next :=
  (next env_reset env_step filter_call log_prob apply_gradients).
Local Abbreviation drain :=
  (drain env_reset env_step filter_call log_prob apply_gradients).
Local Abbreviation iteration :=
  (iteration env_reset env_step filter_call log_prob apply_gradients).
Local Abbreviation main :=
  (main env_reset env_step filter_call log_prob apply_gradients).
Local Abbreviation print_losses :=
  (print_losses env_reset env_step filter_call log_prob apply_gradients).

Lemma rollouts_call_log fuel env policy rf config trajs env' rf' :
  rollouts fuel env policy rf config = Ok (trajs, env', rf') ->
  calls env' =
    calls env ++ CallReset :: map (fun tr => CallStep (concat (action tr))) trajs.
Proof.
  intros H. apply rollouts_episode in H as [Hep _].
  rewrite (episode_calls _ _ _ _ _ _ _ _ _ _ _ _ _ Hep).
  unfold reset. destruct (env_reset (state env)). simpl. now rewrite <- app_assoc.
Qed.

Lemma collect_sound fuel policy config :
  forall n start acc env rf res env' rf',
    for_each (seq start n) (collect_episode fuel policy config) (acc, env, rf)
    = Ok (res, env', rf') ->
    exists eps,
      res = acc ++ eps /\
      sequential_rollouts fuel policy config n env rf eps env' rf'.
Proof.
  induction n as [| n IH]; intros start acc env rf res env' rf' H.
  - injection H as <- <- <-. exists []. rewrite app_nil_r. split; constructor.
  - cbn [seq for_each] in H. apply bind_ok in H as ([[acc1 env1] rf1] & Hbody & H).
    unfold collect_episode in Hbody.
    apply bind_ok in Hbody as ([[ep env2] rf2] & Hroll & Hbody).
    apply bind_ok in Hbody as (tr & _ & Hbody). injection Hbody as <- <- <-.
    apply IH in H as (eps & -> & Hseq).
    exists (ep :: eps). split; [now rewrite <- app_assoc |].
    econstructor; eauto.
Qed.

Lemma sequential_facts fuel policy config n env rf eps env' rf' :
  sequential_rollouts fuel policy config n env rf eps env' rf' ->
  length eps = n /\
  Forall (fun ep => (1 <= length ep)%nat) eps /\
  Forall (Forall batch_of_one) eps /\
  exists new,
    calls env' = calls env ++ new /\
    count_resets new = n /\
    count_steps new = length (concat eps).
Proof.
  induction 1 as [env rf | n env rf ep env1 rf1 eps env' rf' Hroll _ IH].
  - repeat split; auto. exists []. now rewrite app_nil_r.
  - destruct IH as (Hlen & Hne & Hb & new & Hcalls & Hres & Hsteps).
    pose proof (rollouts_call_log _ _ _ _ _ _ _ _ Hroll) as Hlog.
    apply rollouts_episode in Hroll as [Hep _].
    split; [simpl; now rewrite Hlen |].
    split; [constructor; [eapply episode_nonempty; eauto | exact Hne] |].
    split; [constructor; [eapply episode_batches; eauto | exact Hb] |].
    exists ((CallReset :: map (fun tr => CallStep (concat (action tr))) ep) ++ new).
    split; [now rewrite Hcalls, Hlog, <- app_assoc |].
    destruct (count_steps_only (fun tr => concat (action tr)) ep) as [H0 H1].
    split.
    + rewrite count_resets_app, Hres.
      change (count_resets (CallReset :: ?l)) with (S (count_resets l)).
      now rewrite H0.
    + rewrite count_steps_app, Hsteps. simpl concat. rewrite length_app.
      change (count_steps (CallReset :: ?l)) with (count_steps l).
      now rewrite H1.
Qed.

Lemma updates_sound :
  forall trs acc v res v',
    for_each trs update (acc, v) = Ok (res, v') ->
    exists losses,
      res = acc ++ losses /\
      length losses = length trs /\
      Forall (fun t => ~ not_finite t) losses /\
      (Forall batch_of_one trs -> updates v trs losses v').
Proof.
  induction trs as [| tr trs IH]; intros acc v res v' H.
  - injection H as <- <-. exists []. rewrite app_nil_r.
    repeat split; auto. intros _. constructor.
  - cbn [for_each] in H. apply bind_ok in H as ([acc1 v1] & Hbody & H).
    unfold update in Hbody. apply bind_ok in Hbody as ([l v2] & Hrun & Hbody).
    injection Hbody as <- <-.
    unfold run_train_op, loss in Hrun.
    apply bind_ok in Hrun as (o & Ho & Hrun). apply feed_ok in Ho as [-> Ho].
    apply bind_ok in Hrun as (a & Ha & Hrun). apply feed_ok in Ha as [-> Ha].
    apply bind_ok in Hrun as (l' & Hl & Hrun). injection Hrun as <- <-.
    pose proof Hl as Hcheck. apply check_numerics_ok in Hl as [-> Hfin].
    apply IH in H as (losses & -> & Hlen & Hall & Hups).
    exists (log_prob v (observ tr) (action tr) :: losses).
    split; [now rewrite <- app_assoc |].
    split; [simpl; now rewrite Hlen |].
    split; [constructor; assumption |].
    intros Hb. inversion Hb as [| tr0 trs0 [Hso Hsa] Hrest]; subst.
    econstructor; eauto.
Qed.

Lemma _train_inv fuel self losses self' :
  _train fuel self = Ok (losses, self') ->
  exists eps,
    sequential_rollouts fuel (policy self) (config self)
      (Z.to_nat (num_episodes (config self)))
      (env self) (reward_filter self) eps (env self') (reward_filter self') /\
    updates (policy self) (concat eps) losses (policy self') /\
    config self' = config self /\
    length losses = length (concat eps) /\
    Forall (fun t => ~ not_finite t) losses.
Proof.
  intros H. unfold _train, range in H.
  apply bind_ok in H as ([[eps env1] rf1] & Hcollect & H).
  apply bind_ok in H as ([losses1 v1] & Hupd & H). injection H as <- <-.
  apply collect_sound in Hcollect as (eps' & Heps & Hseq). simpl in Heps. subst eps'.
  rewrite for_each_concat in Hupd.
  apply updates_sound in Hupd as (losses' & Hl & Hlen & Hfin & Hups).
  simpl in Hl. subst losses'.
  destruct (sequential_facts _ _ _ _ _ _ _ _ _ Hseq) as (_ & _ & Hb & _).
  exists eps. simpl. repeat split; auto.
  apply Hups, Forall_concat, Hb.
Qed.

(** X16. A training iteration that returns made [num_episodes] rollouts
    one after the other, all with the variables of the start of the
    iteration, then one update per trajectory of those episodes in order,
    each on a batch of one; its loss list has one loss per trajectory and so
    at least [num_episodes] entries, and the configuration is unchanged. *)
Theorem _train_iteration
    (fuel : nat) (self : REINFORCE EnvState FilterState) (losses : list tensor)
    (self' : REINFORCE EnvState FilterState) :
  _train fuel self = Ok (losses, self') ->
  iteration fuel self losses self' /\
  (Z.to_nat (num_episodes (config self)) <= length losses)%nat.
Proof.
  intros H. apply _train_inv in H as (eps & Hseq & Hups & Hcfg & Hlen & _).
  split; [exists eps; auto |].
  destruct (sequential_facts _ _ _ _ _ _ _ _ _ Hseq) as (Hn & Hne & _).
  rewrite Hlen, <- Hn. now apply concat_length_ge.
Qed.

(** X17. Every loss a training iteration returns is finite: no entry of it
    is NaN or Inf. *)
Theorem _train_losses_finite
    (fuel : nat) (self : REINFORCE EnvState FilterState) (losses : list tensor)
    (self' : REINFORCE EnvState FilterState) :
  _train fuel self = Ok (losses, self') ->
  Forall (fun t => ~ not_finite t) losses.
Proof.
  intros H. now apply _train_inv in H as (eps & _ & _ & _ & _ & Hfin).
Qed.

(** X18. A training iteration that returns has called the environment's
    reset exactly [num_episodes] times and its step exactly once per
    returned loss, after the calls made before. *)
Theorem _train_environment_calls
    (fuel : nat) (self : REINFORCE EnvState FilterState) (losses : list tensor)
    (self' : REINFORCE EnvState FilterState) :
  _train fuel self = Ok (losses, self') ->
  exists new,
    calls (env self') = calls (env self) ++ new /\
    count_resets new = Z.to_nat (num_episodes (config self)) /\
    count_steps new = length losses.
Proof.
  intros H. apply _train_inv in H as (eps & Hseq & _ & _ & Hlen & _).
  destruct (sequential_facts _ _ _ _ _ _ _ _ _ Hseq)
    as (_ & _ & _ & new & Hcalls & Hres & Hsteps).
  exists new. rewrite Hlen. auto.
Qed.

(** X19. With [num_episodes <= 0] a training iteration does nothing: it
    returns the empty loss list and leaves the agent as it was. *)
Theorem _train_without_episodes
    (fuel : nat) (self : REINFORCE EnvState FilterState) :
  (num_episodes (config self) <= 0)%Z ->
  _train fuel self = Ok ([], self).
Proof.
  intros Hn. unfold _train, range.
  replace (Z.to_nat (num_episodes (config self))) with 0%nat by lia.
  simpl. now destruct self.
Qed.

Lemma _train_at_least fuel self losses self' :
  _train fuel self = Ok (losses, self') ->
  (Z.to_nat (num_episodes (config self)) <= length losses)%nat.
Proof.
  intros H. apply _train_inv in H as (eps & Hseq & _ & _ & Hlen & _).
  destruct (sequential_facts _ _ _ _ _ _ _ _ _ Hseq) as (Hn & Hne & _).
  rewrite Hlen, <- Hn. now apply concat_length_ge.
Qed.

Lemma update_not_finite acc v tr :
  batch_of_one tr ->
  not_finite (log_prob v (observ tr) (action tr)) ->
  update (acc, v) tr = Raise NumericError.
Proof.
  intros [Ho Ha] Hnf. unfold update, run_train_op, loss.
  rewrite (feed_has_shape 1 2 _ Ho), (feed_has_shape 1 1 _ Ha). simpl.
  now rewrite (not_finite_check _ Hnf).
Qed.

Lemma episode_first policy config t env rf obs raw ret new env' rf' :
  episode policy config t env rf obs raw ret new env' rf' ->
  exists tr rest a,
    new = tr :: rest /\
    observ tr = obs /\
    action tr = newaxis a /\
    compute_action policy obs = Ok a.
Proof. destruct 1; do 3 eexists; repeat split; eauto. Qed.

(** X20. When the loss is not finite for the first step of the first
    episode (the reset observation and the action the starting variables
    give it), episodes end within the step budget and at least one episode
    is collected per iteration, the iteration raises the numeric error, and
    so does draining [train(num_iters)] for every [num_iters >= 1]: no loss
    list is yielded. *)
Theorem train_raises_on_not_finite_loss
    (bound fuel : nat) (self : REINFORCE EnvState FilterState) :
  observations_fit env_reset env_step ->
  bounded_episodes env_reset env_step bound ->
  (bound <= fuel)%nat ->
  (1 <= num_episodes (config self))%Z ->
  (forall act,
      compute_action (policy self) (newaxis (fst (env_reset (state (env self)))))
      = Ok act ->
      not_finite (log_prob (policy self)
                           (newaxis (fst (env_reset (state (env self)))))
                           (newaxis act))) ->
  _train fuel self = Raise NumericError /\
  (forall num_iters budget,
      (1 <= num_iters)%Z ->
      drain (S budget) fuel (train num_iters) self = Raise NumericError).
Proof.
  intros Hobs Hbound Hfuel Hn Hnf.
  assert (Htrain : _train fuel self = Raise NumericError).
  { destruct (collect_total env_reset env_step filter_call bound fuel
                (policy self) (config self) Hobs Hbound Hfuel
                (Z.to_nat (num_episodes (config self))) 0%nat [] (env self)
                (reward_filter self))
      as (eps & env' & rf' & Hcollect & Hseq & Hall).
    destruct (sequential_facts _ _ _ _ _ _ _ _ _ Hseq) as (Hlen & _).
    destruct eps as [| ep eps]; [simpl in Hlen; lia |].
    inversion Hseq as [| n0 e0 r0 ep0 env1 rf1 eps0 env2 rf2 Hroll _]; subst.
    apply rollouts_episode in Hroll as [Hep _].
    destruct (episode_first _ _ _ _ _ _ _ _ _ _ _ Hep)
      as (tr & rest & a & -> & Hobserv & Haction & Ha).
    rewrite (reset_observation env_reset) in Ha, Hobserv.
    inversion Hall as [| ep0 eps0 Hb _]; subst.
    inversion Hb as [| tr0 ep0 Htr _]; subst.
    unfold _train, range. rewrite Hcollect. cbn [bind app].
    rewrite for_each_concat. cbn [concat app for_each].
    rewrite (update_not_finite [] (policy self) tr Htr); [reflexivity |].
    rewrite Hobserv, Haction. now apply Hnf. }
  split; [exact Htrain |].
  intros num_iters budget Hiters. cbn [drain]. unfold next, train, range.
  destruct (Z.to_nat num_iters) as [| k] eqn:Ek; [lia |].
  cbn [seq pending]. now rewrite Htrain.
Qed.


Lemma drain_sound fuel :
  forall budget l self lls gen' self',
    drain budget fuel (mkGenerator l) self = Ok (lls, gen', self') ->
    length lls = length l /\
    iterations env_reset env_step filter_call log_prob apply_gradients fuel
               self lls self' /\
    pending gen' = [].
Proof.
  induction budget as [| budget IH]; intros l self lls gen' self' H;
    [discriminate |].
  cbn [drain] in H. apply bind_ok in H as ([[y gen1] self1] & Hnext & H).
  unfold next in Hnext. cbn [pending] in Hnext. destruct l as [| i l].
  - injection Hnext as <- <- <-. injection H as <- <- <-.
    repeat split. constructor.
  - apply bind_ok in Hnext as ([losses self2] & Htrain & Hnext).
    injection Hnext as <- <- <-.
    apply bind_ok in H as ([[rest gen2] self3] & Hrest & H).
    injection H as <- <- <-.
    apply IH in Hrest as (Hlen & Hiters & Hpending).
    apply _train_inv in Htrain as (eps & Hseq & Hups & Hcfg & _).
    split; [simpl; now rewrite Hlen |]. split; [| exact Hpending].
    apply iterations_cons with (self' := self2); [| exact Hiters].
    exists eps. split; [exact Hseq |]. split; [exact Hups | exact Hcfg].
Qed.

(** X23. Whatever the loss, when draining [train(num_iters)] completes it
    has yielded [num_iters] loss lists (none for a negative [num_iters]),
    each the result of one iteration from the agent the iteration before
    left, and the generator is exhausted; an error in an iteration leaves no
    list of losses at all. *)
Theorem drain_yields_iterations
    (budget fuel : nat) (num_iters : Z) (self : REINFORCE EnvState FilterState)
    (lls : list (list tensor)) (gen' : generator)
    (self' : REINFORCE EnvState FilterState) :
  drain budget fuel (train num_iters) self = Ok (lls, gen', self') ->
  length lls = Z.to_nat num_iters /\
  iterations env_reset env_step filter_call log_prob apply_gradients fuel
             self lls self' /\
  pending gen' = [].
Proof.
  intros H. unfold train, range in H.
  apply drain_sound in H as (Hlen & Hiters & Hpending).
  rewrite length_seq in Hlen. auto.
Qed.

End TrainingExtras.

(** *** The training properties on the stub collaborators *)

Lemma stub_train :
  _train stub_reset (stub_step 3) identity_filter finite_loss no_step 3 stub_agent
  = Ok (stub_losses, stub_agent_after).
Proof. vm_compute. reflexivity. Qed.

Lemma _train_iteration_witness :
  _train stub_reset (stub_step 3) identity_filter finite_loss no_step 3 stub_agent
  = Ok (stub_losses, stub_agent_after) /\
  iteration stub_reset (stub_step 3) identity_filter finite_loss no_step 3
            stub_agent stub_losses stub_agent_after /\
  (Z.to_nat (num_episodes (config stub_agent)) <= length stub_losses)%nat.
Proof.
  split; [exact stub_train |].
  exact (_train_iteration stub_reset (stub_step 3) identity_filter finite_loss no_step
           3 stub_agent stub_losses stub_agent_after stub_train).
Defined.

Lemma _train_losses_finite_witness :
  _train stub_reset (stub_step 3) identity_filter finite_loss no_step 3 stub_agent
  = Ok (stub_losses, stub_agent_after) /\
  Forall (fun t => ~ not_finite t) stub_losses.
Proof.
  split; [exact stub_train |].
  exact (_train_losses_finite stub_reset (stub_step 3) identity_filter finite_loss
           no_step 3 stub_agent stub_losses stub_agent_after stub_train).
Defined.

Lemma _train_environment_calls_witness :
  _train stub_reset (stub_step 3) identity_filter finite_loss no_step 3 stub_agent
  = Ok (stub_losses, stub_agent_after) /\
  exists new,
    calls (env stub_agent_after) = calls (env stub_agent) ++ new /\
    count_resets new = Z.to_nat (num_episodes (config stub_agent)) /\
    count_steps new = length stub_losses.
Proof.
  split; [exact stub_train |].
  exact (_train_environment_calls stub_reset (stub_step 3) identity_filter finite_loss
           no_step 3 stub_agent stub_losses stub_agent_after stub_train).
Defined.

Lemma _train_without_episodes_witness :
  (num_episodes (config idle_agent) <= 0)%Z /\
  _train stub_reset (stub_step 3) identity_filter finite_loss no_step 3 idle_agent
  = Ok ([], idle_agent).
Proof.
  split; [simpl; lia |].
  apply (_train_without_episodes stub_reset (stub_step 3) identity_filter finite_loss
           no_step 3 idle_agent).
  simpl. lia.
Defined.

Lemma stub_actions_below_one (v : Variables) (o act : vector) :
  env_observation stub_reset (stub_step 3) o ->
  compute_action v (newaxis o) = Ok act ->
  below_one (newaxis act).
Proof.
  intros Ho Hact.
  assert (Eo : o = [0; 0]) by (destruct Ho as [(s & ->) | (s & a & ->)]; reflexivity).
  subst o.
  unfold newaxis in *.
  destruct (compute_action_accepts v [[0; 0]] eq_refl) as (a & Ha & Hm).
  pose proof (eq_trans (eq_sym Ha) Hact : Ok a = Ok act) as E. injection E as <-.
  assert (Hz : Forall (Forall (fun q => q == 0)) [[0; 0]])
    by (repeat constructor).
  pose proof (model_zero v _ Hz) as H. rewrite Hm in H.
  unfold below_one. inversion H as [| row rows Hrow _]; subst.
  constructor; [| constructor].
  eapply Forall_impl; [| exact Hrow]. intros c Hc. simpl in Hc. rewrite Hc.
  reflexivity.
Qed.

Lemma unit_observations_fit : observations_fit unit_reset (unit_step 3).
Proof. split; reflexivity. Qed.

Lemma unit_bounded_episodes : bounded_episodes unit_reset (unit_step 3) 3.
Proof.
  exists (fun s => 3 - s)%nat. split.
  - intros s. simpl. lia.
  - intros s a Hs Hd. unfold unit_step in *. cbn [fst snd] in *.
    apply Nat.eqb_neq in Hd. lia.
Qed.

Lemma saturated_first_step (act : vector) :
  compute_action (policy saturated_agent)
                 (newaxis (fst (unit_reset (state (env saturated_agent))))) = Ok act ->
  not_finite (source_loss (fun _ => 0) (policy saturated_agent)
                          (newaxis (fst (unit_reset (state (env saturated_agent)))))
                          (newaxis act)).
Proof.
  intros H.
  assert (E : compute_action (policy saturated_agent)
                (newaxis (fst (unit_reset (state (env saturated_agent))))) = Ok [1])
    by (vm_compute; reflexivity).
  rewrite E in H. injection H as <-. apply source_loss_at_one.
Qed.


Lemma train_raises_on_not_finite_loss_witness :
  observations_fit unit_reset (unit_step 3) /\
  bounded_episodes unit_reset (unit_step 3) 3 /\
  (3 <= 3)%nat /\
  (1 <= num_episodes (config saturated_agent))%Z /\
  (forall act,
      compute_action (policy saturated_agent)
                     (newaxis (fst (unit_reset (state (env saturated_agent))))) = Ok act ->
      not_finite (source_loss (fun _ => 0) (policy saturated_agent)
                              (newaxis (fst (unit_reset (state (env saturated_agent)))))
                              (newaxis act))) /\
  _train unit_reset (unit_step 3) identity_filter (source_loss (fun _ => 0)) no_step
         3 saturated_agent
  = Raise NumericError /\
  (forall num_iters budget,
      (1 <= num_iters)%Z ->
      drain unit_reset (unit_step 3) identity_filter (source_loss (fun _ => 0)) no_step
            (S budget) 3 (train num_iters) saturated_agent
      = Raise NumericError).
Proof.
  split; [apply unit_observations_fit |].
  split; [apply unit_bounded_episodes |].
  split; [lia |].
  split; [simpl; lia |].
  split; [exact saturated_first_step |].
  apply (train_raises_on_not_finite_loss unit_reset (unit_step 3) identity_filter
           (source_loss (fun _ => 0)) no_step 3 3 saturated_agent).
  - apply unit_observations_fit.
  - apply unit_bounded_episodes.
  - lia.
  - simpl. lia.
  - exact saturated_first_step.
Defined.


Lemma stub_drain :
  drain stub_reset (stub_step 3) identity_filter finite_loss no_step 2 3 (train 1)
        stub_agent
  = Ok ([stub_losses], mkGenerator [], stub_agent_after).
Proof. vm_compute. reflexivity. Qed.

Lemma drain_yields_iterations_witness :
  drain stub_reset (stub_step 3) identity_filter finite_loss no_step 2 3 (train 1)
        stub_agent
  = Ok ([stub_losses], mkGenerator [], stub_agent_after) /\
  length [stub_losses] = Z.to_nat 1 /\
  iterations stub_reset (stub_step 3) identity_filter finite_loss no_step 3
             stub_agent [stub_losses] stub_agent_after /\
  pending (mkGenerator []) = [].
Proof.
  split; [exact stub_drain |].
  exact (drain_yields_iterations stub_reset (stub_step 3) identity_filter finite_loss
           no_step 2 3 1 stub_agent [stub_losses] (mkGenerator []) stub_agent_after
           stub_drain).
Defined.
